(** * generate_author_pages.py: a shallow embedding and its properties

    The script scans the markdown files of a Jupyter Book for an attribution
    marker, groups the articles by author, and writes one page per author of
    the registry found in [_config.yml].

    Data model.  A Python [str] is the list of its code points, a code point
    being a number in [N].  The two regular expressions are lists of
    operations, run by a backtracking matcher that tries the alternatives in
    the order of Python's [re] module (greedy and lazy repeats of one
    character, one capturing group).  A [dict] is an association list in
    insertion order; the set [author_ids] is a list without repetition.
    What the script prints and writes is recorded as a trace of events.

    Inputs.  The registry loader starts from the table
    [sphinx.config.myst_substitutions], whose keys and values are strings.
    The scanner starts from the list of files that [BOOK_DIR.glob("*.md")]
    yields, each with its path, name, stem and the outcome of reading it.

    Unicode tables.  White space ([str.isspace], [\s]) is the full Unicode
    list, and IGNORECASE on the letters of [Authors] is exact for all code
    points.  The case mappings of [str.lower] and [str.title] are those of
    the code points below 256 (ASCII and Latin-1); code points above are
    taken as caseless. *)

From Stdlib Require Import List NArith Arith Lia Bool String Ascii.
From Stdlib Require Import Sorting.Sorted Sorting.Permutation DecimalString.
Import ListNotations.

Set Implicit Arguments.
Local Open Scope string_scope.
Local Open Scope N_scope.
Local Open Scope list_scope.

(* ================================================================= *)
(** ** Python strings *)

Module Py.

Definition char := N.
Definition str := list char.

(** An ASCII literal as a [str]. *)
Definition txt (s : string) : str := map N_of_ascii (list_ascii_of_string s).

Definition newline : char := 10.
Definition dquote : char := 34.

Definition in_range (lo hi c : char) : bool := (lo <=? c) && (c <=? hi).

(** [str.isspace] on one character, which is also the class [\s]. *)
Definition isspace (c : char) : bool :=
  in_range 9 13 c || in_range 28 32 c || (c =? 133) || (c =? 160)
  || (c =? 5760) || in_range 8192 8202 c || (c =? 8232) || (c =? 8233)
  || (c =? 8239) || (c =? 8287) || (c =? 12288).

(** Simple lower-case mapping of one code point. *)
Definition lower_char (c : char) : char :=
  if in_range 65 90 c then c + 32
  else if in_range 192 222 c && negb (c =? 215) then c + 32
  else c.

(** [s.lower()] *)
Definition lower (s : str) : str := map lower_char s.

(** [str.title] maps a character that starts a word to title case; three
    Latin-1 letters leave the range or grow. *)
Definition title_char (c : char) : str :=
  if in_range 97 122 c then [c - 32]
  else if c =? 181 then [924]
  else if c =? 223 then [83; 115]
  else if c =? 255 then [376]
  else if in_range 224 254 c && negb (c =? 247) then [c - 32]
  else [c].

Definition is_cased (c : char) : bool :=
  in_range 65 90 c || in_range 97 122 c || (c =? 170) || (c =? 181)
  || (c =? 186) || (in_range 192 255 c && negb (c =? 215) && negb (c =? 247)).

Fixpoint title_from (previous_is_cased : bool) (s : str) : str :=
  match s with
  | [] => []
  | c :: s' =>
      (if previous_is_cased then [lower_char c] else title_char c)
        ++ title_from (is_cased c) s'
  end.

(** [s.title()] *)
Definition title (s : str) : str := title_from false s.

Fixpoint lstrip (s : str) : str :=
  match s with
  | c :: s' => if isspace c then lstrip s' else s
  | [] => []
  end.

Definition rstrip (s : str) : str := rev (lstrip (rev s)).

(** [s.strip()] *)
Definition strip (s : str) : str := rstrip (lstrip s).

(** [s.split(sep)] for a separator of one character. *)
Fixpoint split (sep : char) (s : str) : list str :=
  match s with
  | [] => [[]]
  | c :: s' =>
      if c =? sep then [] :: split sep s'
      else match split sep s' with
           | w :: ws => (c :: w) :: ws
           | [] => [[c]]
           end
  end.

(** [sep.join(parts)] *)
Fixpoint join (sep : str) (parts : list str) : str :=
  match parts with
  | [] => []
  | [p] => p
  | p :: ps => p ++ sep ++ join sep ps
  end.

(** [s.startswith(prefix)] *)
Fixpoint startswith (prefix s : str) : bool :=
  match prefix, s with
  | [], _ => true
  | p :: prefix', c :: s' => (c =? p) && startswith prefix' s'
  | _ :: _, [] => false
  end.

(** [s.startswith((p1, p2, ...))] *)
Definition startswith_any (prefixes : list str) (s : str) : bool :=
  existsb (fun p => startswith p s) prefixes.

(** [s.endswith(suffix)] *)
Definition endswith (suffix s : str) : bool := startswith (rev suffix) (rev s).

(** [s.replace(old, new)] for a non-empty [old]: occurrences are found from
    the left and do not overlap.  [skip] counts the characters of an
    occurrence that remain to be dropped. *)
Fixpoint replace_from (old new : str) (skip : nat) (s : str) : str :=
  match s with
  | [] => []
  | c :: s' =>
      match skip with
      | S k => replace_from old new k s'
      | O =>
          if startswith old s
          then new ++ replace_from old new (pred (List.length old)) s'
          else c :: replace_from old new O s'
      end
  end.

Definition replace (old new s : str) : str := replace_from old new O s.

(** [s[n:]] *)
Definition slice_from (n : nat) (s : str) : str := skipn n s.

(** [str(n)] for a natural number. *)
Definition str_of_nat (n : nat) : str :=
  txt (NilEmpty.string_of_uint (Nat.to_uint n)).

Definition str_eqb (a b : str) : bool :=
  if list_eq_dec N.eq_dec a b then true else false.

(** [a <= b] on strings: code points compared from the left. *)
Fixpoint str_leb (a b : str) : bool :=
  match a, b with
  | [], _ => true
  | _ :: _, [] => false
  | x :: a', y :: b' =>
      if x <? y then true else if y <? x then false else str_leb a' b'
  end.

End Py.

Import Py.

(* ================================================================= *)
(** ** Regular expressions *)

Module Re.

(** A class of characters: a literal, [\s], [.], [[^x]]. *)
Definition cset := char -> bool.

(** A literal character.  Under IGNORECASE a cased literal matches the
    characters with the same lower case, and those that the [re] module
    declares equivalent besides: the long s (U+017F) is one for [s]. *)
Definition ignorecase_fixes (c : char) : list char :=
  if c =? 115 then [383] else [].

Definition literal (ignorecase : bool) (c : char) : cset :=
  fun x =>
    if ignorecase
    then (lower_char x =? lower_char c)
         || existsb (N.eqb x) (ignorecase_fixes (lower_char c))
    else x =? c.

(** [\s] *)
Definition space : cset := isspace.

(** [.] without DOTALL: anything but a newline. *)
Definition any : cset := fun x => negb (x =? newline).

(** [[^c]] *)
Definition not_literal (c : char) : cset := fun x => negb (x =? c).

(** The compiled form of a pattern: single characters, repeated single
    characters, and the two marks that delimit group 1. *)
Inductive op :=
| One (p : cset)
| Repeat (greedy : bool) (lo : nat) (hi : option nat) (p : cset)
| MarkOpen
| MarkClose.

(** The input left at the marks of group 1. *)
Record marks := { at_open : str; at_close : str }.

Definition orelse {A} (x y : option A) : option A :=
  match x with Some _ => x | None => y end.

Definition may_repeat (hi : option nat) : bool :=
  match hi with Some O => false | _ => true end.

Definition one_less (hi : option nat) : option nat := option_map pred hi.

(** [repeat_one greedy lo hi p k s]: between [lo] and [hi] characters of class
    [p], then the rest of the pattern [k].  A greedy repeat tries one more
    character before it tries [k]; a lazy one tries [k] first. *)
Fixpoint repeat_one {A} (greedy : bool) (lo : nat) (hi : option nat) (p : cset)
    (k : str -> option A) (s : str) {struct s} : option A :=
  let more :=
    match s with
    | c :: s' =>
        if p c && may_repeat hi
        then repeat_one greedy (pred lo) (one_less hi) p k s'
        else None
    | [] => None
    end in
  match lo with
  | S _ => more
  | O => if greedy then orelse more (k s) else orelse (k s) more
  end.

(** [run ops m s]: match [ops] at the head of [s]; the result is the marks
    and the input that follows the match. *)
Fixpoint run (ops : list op) (m : marks) (s : str) : option (marks * str) :=
  match ops with
  | [] => Some (m, s)
  | One p :: k =>
      match s with
      | c :: s' => if p c then run k m s' else None
      | [] => None
      end
  | Repeat greedy lo hi p :: k => repeat_one greedy lo hi p (run k m) s
  | MarkOpen :: k => run k {| at_open := s; at_close := at_close m |} s
  | MarkClose :: k => run k {| at_open := at_open m; at_close := s |} s
  end.

(** Group 1 of a match. *)
Definition group1 (m : marks) : str :=
  firstn (List.length (at_open m) - List.length (at_close m)) (at_open m).

(** A match at the head of [s]: group 1 and the input after the match. *)
Definition match_here (ops : list op) (s : str) : option (str * str) :=
  match run ops {| at_open := []; at_close := [] |} s with
  | Some (m, rest) => Some (group1 m, rest)
  | None => None
  end.

(** [pattern.search(s)]: the match at the first position that has one. *)
Fixpoint search (ops : list op) (s : str) : option (str * str) :=
  match match_here ops s with
  | Some r => Some r
  | None =>
      match s with
      | [] => None
      | _ :: s' => search ops s'
      end
  end.

(** [pattern.findall(s)] for a pattern with one group and no empty match:
    group 1 of the matches from the left, each search starting where the
    previous match ended.  [skip] counts the characters of the last match
    that remain to be passed. *)
Fixpoint findall_from (ops : list op) (skip : nat) (s : str) : list str :=
  match s with
  | [] => []
  | _ :: s' =>
      match skip with
      | S k => findall_from ops k s'
      | O =>
          match match_here ops s with
          | Some (g, rest) =>
              g :: findall_from ops
                     (pred (List.length s - List.length rest)) s'
          | None => findall_from ops O s'
          end
      end
  end.

Definition findall (ops : list op) (s : str) : list str :=
  findall_from ops O s.

End Re.

Import Re.

(* ================================================================= *)
(** ** The script *)

Definition star : char := 42.
Definition colon : char := 58.
Definition comma : char := 44.
Definition lbracket : char := 91.
Definition rbracket : char := 93.
Definition lparen : char := 40.
Definition rparen : char := 41.

(** [AUTHOR_PATTERN = re.compile(r'\*Authors?:\s*(.+?)\*', re.IGNORECASE)] *)
Definition AUTHOR_PATTERN : list op :=
  [ One (literal true star);
    One (literal true 65); One (literal true 117); One (literal true 116);
    One (literal true 104); One (literal true 111); One (literal true 114);
    Repeat true 0 (Some 1%nat) (literal true 115);
    One (literal true colon);
    Repeat true 0 None space;
    MarkOpen; Repeat false 1 None any; MarkClose;
    One (literal true star) ].

(** [AUTHOR_LINK_PATTERN = re.compile(r'\[([^\]]+)\]\([^)]+\)')] *)
Definition AUTHOR_LINK_PATTERN : list op :=
  [ One (literal false lbracket);
    MarkOpen; Repeat true 1 None (not_literal rbracket); MarkClose;
    One (literal false rbracket);
    One (literal false lparen);
    Repeat true 1 None (not_literal rparen);
    One (literal false rparen) ].

(** *** Effects: what the script prints and writes *)

Inductive event :=
| Stdout (line : str)
| WriteText (path : str) (content : str).

(** A computation returns a value and the trace of its events. *)
Definition IO (A : Type) : Type := A * list event.

Definition ret {A} (a : A) : IO A := (a, []).

Definition bind {A B} (m : IO A) (k : A -> IO B) : IO B :=
  let (a, t1) := m in let (b, t2) := k a in (b, t1 ++ t2).

Definition print (line : str) : IO unit := (tt, [Stdout line]).

Definition write_text (path content : str) : IO unit :=
  (tt, [WriteText path content]).

Definition trace {A} (m : IO A) : list event := snd m.
Definition value {A} (m : IO A) : A := fst m.

Declare Scope io_scope.
Delimit Scope io_scope with io.
Notation "x <- m ;; k" := (bind m (fun x => k))
  (at level 61, m at next level, right associativity) : io_scope.
Notation "m ;; k" := (bind m (fun _ => k))
  (at level 61, right associativity) : io_scope.
Local Open Scope io_scope.

(** [for x in xs: body(x)] *)
Fixpoint for_each {A} (xs : list A) (body : A -> IO unit) : IO unit :=
  match xs with
  | [] => ret tt
  | x :: xs' => body x ;; for_each xs' body
  end.

(** *** Dictionaries *)

Definition dict (V : Type) : Type := list (str * V).

(** [d.get(k)] *)
Fixpoint get {V} (k : str) (d : dict V) : option V :=
  match d with
  | [] => None
  | (k', v) :: d' => if str_eqb k k' then Some v else get k d'
  end.

(** [d.get(k, default)] *)
Definition get_default {V} (k : str) (d : dict V) (default : V) : V :=
  match get k d with Some v => v | None => default end.

(** [d[k] = v]: a key keeps the place of its first insertion. *)
Fixpoint set {V} (k : str) (v : V) (d : dict V) : dict V :=
  match d with
  | [] => [(k, v)]
  | (k', v') :: d' =>
      if str_eqb k k' then (k, v) :: d' else (k', v') :: set k v d'
  end.

Definition keys {V} (d : dict V) : list str := map fst d.

(** [s.add(x)] on a set kept as a list without repetition. *)
Definition set_add (x : str) (s : list str) : list str :=
  if existsb (str_eqb x) s then s else s ++ [x].

(** *** Files *)

(** A markdown file of the book: [str(filepath)], [filepath.name],
    [filepath.stem], and what [filepath.read_text(encoding='utf-8')] does:
    the text, or an exception with its message. *)
Record Path := {
  path_str : str;
  name : str;
  stem : str;
  read_text : str + str
}.

(** *** The registry *)

Record profile := {
  p_name : str;
  p_bio : str;
  p_github : str;
  p_linkedin : str;
  p_email : str
}.

(** The loop that collects the set [author_ids], kept in the order of
    first insertion. *)
Definition author_ids_of (substitutions : dict str) : list str :=
  fold_left
    (fun author_ids key =>
       if endswith (txt "_name") key
       then set_add (replace (txt "_name") [] key) author_ids
       else author_ids)
    (keys substitutions) [].

(** The dictionary built for one identifier. *)
Definition author_entry (substitutions : dict str) (author_id : str)
  : profile :=
  {| p_name := get_default (author_id ++ txt "_name") substitutions
                 (title author_id);
     p_bio := get_default (author_id ++ txt "_bio") substitutions [];
     p_github := get_default (author_id ++ txt "_github") substitutions [];
     p_linkedin :=
       get_default (author_id ++ txt "_linkedin") substitutions [];
     p_email := get_default (author_id ++ txt "_email") substitutions [] |}.

(** [load_authors_from_config], from the table [myst_substitutions] of the
    configuration on. *)
Definition load_authors_from_config (substitutions : dict str)
  : dict profile :=
  fold_left
    (fun authors author_id =>
       set author_id (author_entry substitutions author_id) authors)
    (author_ids_of substitutions) [].

Definition SECTIONS : dict str :=
  [ (txt "01-introduction", txt "Getting Started");
    (txt "02-setup", txt "Getting Started");
    (txt "03-energy-basics", txt "Energy System Fundamentals");
    (txt "04-electricity-markets", txt "Energy System Fundamentals");
    (txt "05-optimization", txt "Modelling Techniques");
    (txt "06-capacity-expansion", txt "Modelling Techniques") ].

(** *** Attribution and title *)

Definition nonempty {A} (l : list A) : bool :=
  match l with [] => false | _ :: _ => true end.

(** The names that a marker text [author_text] lists. *)
Definition names_of_marker (author_text : str) : list str :=
  let authors := findall AUTHOR_LINK_PATTERN author_text in
  if nonempty authors
  then map lower authors
  else map (fun a => lower (strip a)) (split comma author_text).

Definition extract_authors_from_file (filepath : Path) : IO (list str) :=
  match read_text filepath with
  | inl content =>
      match search AUTHOR_PATTERN content with
      | Some (author_text, _) => ret (names_of_marker author_text)
      | None => ret []
      end
  | inr e =>
      print (txt "Error reading " ++ path_str filepath ++ txt ": " ++ e) ;;
      ret []
  end.

(** [line.startswith('# ')] *)
Definition is_h1 (line : str) : bool := startswith (txt "# ") line.

(** The loop of [get_article_title] over the lines. *)
Fixpoint first_h1 (lines : list str) : option str :=
  match lines with
  | [] => None
  | line :: lines' =>
      if is_h1 line
      then Some (strip (slice_from 2 line))
      else first_h1 lines'
  end.

Definition get_article_title (filepath : Path) : str :=
  match read_text filepath with
  | inl content =>
      match first_h1 (split newline content) with
      | Some t => t
      | None => stem filepath
      end
  | inr _ => stem filepath
  end.

(** *** Scanning *)

(** [(file_stem, title, section)] *)
Definition entry : Type := str * str * str.

Definition entry_stem (e : entry) : str := fst (fst e).

(** [author_articles[author].append(e)] on a [defaultdict(list)]. *)
Definition append_to (author : str) (e : entry) (d : dict (list entry))
  : dict (list entry) :=
  set author (get_default author d [] ++ [e]) d.

(** [l.sort(key=lambda x: x[0])]: the sort is stable, and a stable sort has
    one result; it is computed here by insertion. *)
Fixpoint insert_by_stem (x : entry) (l : list entry) : list entry :=
  match l with
  | [] => [x]
  | y :: l' =>
      if str_leb (entry_stem x) (entry_stem y) then x :: l
      else y :: insert_by_stem x l'
  end.

Definition sort_by_stem (l : list entry) : list entry :=
  fold_right insert_by_stem [] l.

Definition skipped (md_file : Path) : bool :=
  startswith_any [txt "author-"; txt "intro"; txt "references"]
    (name md_file).

(** One turn of the loop over the files. *)
Definition scan_file (author_articles : dict (list entry)) (md_file : Path)
  : IO (dict (list entry)) :=
  if skipped md_file then ret author_articles
  else
    authors <- extract_authors_from_file md_file ;;
    let title := get_article_title md_file in
    let file_stem := stem md_file in
    let section := get_default file_stem SECTIONS (txt "Other") in
    ret (fold_left
           (fun d author => append_to author (file_stem, title, section) d)
           authors author_articles).

Fixpoint scan_files (author_articles : dict (list entry))
    (files : list Path) : IO (dict (list entry)) :=
  match files with
  | [] => ret author_articles
  | md_file :: files' =>
      d <- scan_file author_articles md_file ;;
      scan_files d files'
  end.

(** [scan_articles]; [files] is what [BOOK_DIR.glob("*.md")] yields. *)
Definition scan_articles (files : list Path) : IO (dict (list entry)) :=
  d <- scan_files [] files ;;
  ret (map (fun kv => (fst kv, sort_by_stem (snd kv))) d).

(** *** Rendering *)

Definition quoted (s : str) : str := dquote :: s ++ [dquote].

Definition left_arrow : char := 8592.

(** The lines of a page down to the heading of the article list. *)
Definition page_head (author_id : str) (author : profile) : list str :=
  [ txt "---";
    txt "orphan: true";
    txt "---";
    [];
    txt "(author-" ++ author_id ++ txt "-page)=";
    txt "# " ++ p_name author ++ txt " - Articles";
    [];
    txt "<a href=" ++ quoted (p_github author) ++ txt "><i class="
      ++ quoted (txt "fa-brands fa-github author-icon") ++ txt "></i></a> "
      ++ txt "<a href=" ++ quoted (p_linkedin author) ++ txt "><i class="
      ++ quoted (txt "fa-brands fa-linkedin author-icon")
      ++ txt "></i></a> "
      ++ txt "<a href=" ++ quoted (txt "mailto:" ++ p_email author)
      ++ txt "><i class="
      ++ quoted (txt "fa-solid fa-envelope author-icon") ++ txt "></i></a>";
    [];
    p_bio author;
    [];
    txt "## Articles by " ++ p_name author;
    [] ].

(** The table of a non-empty article list. *)
Definition article_table (articles : list entry) : list str :=
  [ txt "```{list-table}";
    txt ":header-rows: 1";
    [];
    txt "* - Article";
    txt "  - Section" ]
  ++ flat_map
       (fun e : entry =>
          let '(file_stem, _, section) := e in
          [ txt "* - {doc}`" ++ file_stem ++ txt "`";
            txt "  - " ++ section ])
       articles
  ++ [ txt "```" ].

Definition no_articles : str := txt "*No articles found.*".

(** The lines that stand for the article list. *)
Definition article_lines (articles : list entry) : list str :=
  if nonempty articles then article_table articles else [no_articles].

(** The lines that close a page. *)
Definition page_foot (author_id : str) : list str :=
  [ [];
    txt "<a href=" ++ quoted (txt "intro.html#" ++ author_id) ++ txt ">"
      ++ [left_arrow] ++ txt " Back to About the Author</a>";
    [] ].

(** The text of a page: its lines joined by newlines. *)
Definition page_of (author_id : str) (author : profile)
    (articles : list entry) : str :=
  join [newline]
    (page_head author_id author ++ article_lines articles
     ++ page_foot author_id).

Definition warning (author_id : str) : str :=
  txt "Warning: No metadata found for author '" ++ author_id ++ txt "'".

Section Registry.

(** The global [AUTHORS]. *)
Variable AUTHORS : dict profile.

Definition generate_author_page (author_id : str) (articles : list entry)
  : IO str :=
  match get author_id AUTHORS with
  | None => print (warning author_id) ;; ret []
  | Some author => ret (page_of author_id author articles)
  end.

(** [Path.name] of a path: its last component. *)
Definition path_name (path : str) : str := last (split 47 path) [].

Definition output_file (author_id : str) : str :=
  txt "author-" ++ author_id ++ txt ".md".

(** One turn of the loop of [main] over the registry. *)
Definition write_page (author_articles : dict (list entry))
    (author_id : str) : IO unit :=
  let articles := get_default author_id author_articles [] in
  content <- generate_author_page author_id articles ;;
  if nonempty content
  then
    let output_path := output_file author_id in
    write_text output_path content ;;
    print (txt "Generated: " ++ path_name output_path)
  else ret tt.

(** [main]; paths of written files are relative to [BOOK_DIR]. *)
Definition main (files : list Path) : IO unit :=
  print (txt "Scanning articles for author attribution...") ;;
  author_articles <- scan_articles files ;;
  print (txt "Found articles for "
         ++ str_of_nat (List.length author_articles) ++ txt " authors:") ;;
  for_each author_articles
    (fun kv =>
       print (txt "  - " ++ fst kv ++ txt ": "
              ++ str_of_nat (List.length (snd kv)) ++ txt " articles")) ;;
  for_each (keys AUTHORS) (write_page author_articles) ;;
  print (newline
         :: txt "Done! Run 'jupyter-book build energy_modelling_notes' to build the book.").

End Registry.

(** The script as run: the registry is loaded when the module is, then
    [main] runs. *)
Definition run_script (substitutions : dict str) (files : list Path)
  : IO unit :=
  main (load_authors_from_config substitutions) files.

(* ================================================================= *)
(** ** Shapes of text that the statements speak of *)

(** What a pattern accepts, read off its operations: [accepts ops w] when
    [w] is a string that [ops] can consume, whatever the order in which a
    matcher looks for it. *)
Definition within (hi : option nat) (n : nat) : Prop :=
  match hi with Some h => (n <= h)%nat | None => True end.

Inductive accepts : list op -> str -> Prop :=
| acc_nil : accepts [] []
| acc_one p k c w :
    p c = true -> accepts k w -> accepts (One p :: k) (c :: w)
| acc_repeat greedy lo hi p k u w :
    Forall (fun c => p c = true) u ->
    (lo <= List.length u)%nat -> within hi (List.length u) ->
    accepts k w -> accepts (Repeat greedy lo hi p :: k) (u ++ w)
| acc_open k w : accepts k w -> accepts (MarkOpen :: k) w
| acc_close k w : accepts k w -> accepts (MarkClose :: k) w.

(** [lits], character by character, up to case when [ignorecase]. *)
Fixpoint spells (ignorecase : bool) (lits s : str) : bool :=
  match lits, s with
  | [], [] => true
  | c :: lits', x :: s' => literal ignorecase c x && spells ignorecase lits' s'
  | _, _ => false
  end.

(** The word [Author] or [Authors], in any case. *)
Definition is_keyword (kw : str) : bool :=
  spells true (txt "Author") kw || spells true (txt "Authors") kw.

(** An attribution marker [*Author(s):<blanks><body>*], the body on one
    line and not empty. *)
Definition marker (w : str) : Prop :=
  exists kw ws body,
    w = star :: kw ++ colon :: ws ++ body ++ [star]
    /\ is_keyword kw = true
    /\ Forall (fun c => isspace c = true) ws
    /\ body <> [] /\ ~ In newline body.

Definition contains_marker (content : str) : Prop :=
  exists before w after, content = before ++ w ++ after /\ marker w.

(** A markdown link [[display](target)]. *)
Record link := { display : str; target : str }.

Definition link_text (l : link) : str :=
  lbracket :: display l ++ rbracket :: lparen :: target l ++ [rparen].

Definition well_formed (l : link) : Prop :=
  display l <> [] /\ ~ In rbracket (display l)
  /\ target l <> [] /\ ~ In rparen (target l).



(** [needle] occurs in [s]. *)
Definition occurs_in (needle s : str) : Prop :=
  exists before after, s = before ++ needle ++ after.

(** A run of literal characters in a pattern. *)
Definition ones (ignorecase : bool) (lits : str) : list op :=
  map (fun c => One (literal ignorecase c)) lits.

(** The operations of [AUTHOR_PATTERN] after the opening star and the six
    letters. *)
Definition after_author : list op :=
  [ Repeat true 0 (Some 1%nat) (literal true 115);
    One (literal true colon);
    Repeat true 0 None space;
    MarkOpen; Repeat false 1 None any; MarkClose;
    One (literal true star) ].

Definition is_write (e : event) : Prop :=
  match e with WriteText _ _ => True | Stdout _ => False end.



(** The entry that [scan_articles] appends for a file. *)
Definition entry_of (md_file : Path) : entry :=
  (stem md_file, get_article_title md_file,
   get_default (stem md_file) SECTIONS (txt "Other")).

(** The entries that the files give to [author], in the order of the
    files: one for each time a file that is not skipped names the author. *)
Definition credits (author : str) (files : list Path) : list entry :=
  flat_map
    (fun md_file =>
       if skipped md_file then []
       else map (fun _ => entry_of md_file)
              (filter (str_eqb author)
                 (value (extract_authors_from_file md_file))))
    files.

(** The message for a file that cannot be read. *)
Definition error_line (filepath : Path) (e : str) : str :=
  txt "Error reading " ++ path_str filepath ++ txt ": " ++ e.

(** The files written, in order, among the events of a trace. *)
Definition written (t : list event) : list (str * str) :=
  flat_map
    (fun e => match e with WriteText p c => [(p, c)] | Stdout _ => [] end) t.

(** No key of the index has an empty list. *)
Definition no_empty_list (d : dict (list entry)) : Prop :=
  forall a, get a d <> Some [].

(** Ascending order of the file stems. *)
Definition stem_le (a b : entry) : Prop :=
  str_leb (entry_stem a) (entry_stem b) = true.

(* ================================================================= *)
(** ** Examples *)

Definition md (file_stem : string) (content : str) : Path :=
  {| path_str := txt "energy_modelling_notes/" ++ txt file_stem ++ txt ".md";
     name := txt file_stem ++ txt ".md";
     stem := txt file_stem;
     read_text := inl content |}.

Definition lines_text (lines : list string) : str :=
  join [newline] (map txt lines).

(** A file that cannot be read. *)
Definition locked_file : Path :=
  {| path_str := txt "energy_modelling_notes/locked.md";
     name := txt "locked.md";
     stem := txt "locked";
     read_text := inr (txt "[Errno 13] Permission denied") |}.

(** A file with a reserved name. *)
Definition intro_file : Path :=
  {| path_str := txt "energy_modelling_notes/introduction-old.md";
     name := txt "introduction-old.md";
     stem := txt "introduction-old";
     read_text := inl (txt "*Author: Bo*") |}.


Definition unsorted_files : list Path :=
  [ md "zeta" (txt "*Author: Bo*");
    md "06-capacity-expansion" (txt "*Author: Ada, Bo*");
    md "Alpha" (txt "*Authors: [Bo](intro.md#bo)*") ].

Definition demo_registry : dict profile :=
  load_authors_from_config
    [ (txt "ada_name", txt "Ada L."); (txt "ada_bio", txt "Writes notes.");
      (txt "ada_github", txt "https://github.com/ada");
      (txt "cy_name", txt "Cy") ].

Definition demo_files : list Path :=
  [ md "02-setup" (lines_text ["# Setup"; ""; "*Author: Bo, Ada*"]);
    md "intro" (lines_text ["# About"; "*Author: Cy*"]) ].

(* ================================================================= *)
(** ** Properties of the string operations *)

Lemma str_eqb_eq (a b : str) : str_eqb a b = true <-> a = b.
Proof.
  unfold str_eqb. destruct (list_eq_dec N.eq_dec a b); split; congruence.
Qed.

Lemma str_eqb_refl (a : str) : str_eqb a a = true.
Proof. now apply str_eqb_eq. Qed.

Lemma str_eqb_neq (a b : str) : str_eqb a b = false <-> a <> b.
Proof.
  unfold str_eqb. destruct (list_eq_dec N.eq_dec a b); split; congruence.
Qed.

Lemma str_leb_total (a b : str) : str_leb a b = false -> str_leb b a = true.
Proof.
  revert b. induction a as [|x a IH]; intros [|y b]; simpl; try easy.
  destruct (x <? y) eqn:Hxy; [discriminate|].
  destruct (y <? x) eqn:Hyx; [reflexivity|]. apply IH.
Qed.

Lemma str_leb_refl (a : str) : str_leb a a = true.
Proof.
  induction a as [|x a IH]; simpl; [reflexivity|].
  now rewrite N.ltb_irrefl.
Qed.

Lemma str_leb_trans (a b c : str) :
  str_leb a b = true -> str_leb b c = true -> str_leb a c = true.
Proof.
  revert b c. induction a as [|x a IH]; intros [|y b] [|z c]; simpl; try easy.
  destruct (x <? y) eqn:Hxy, (y <? x) eqn:Hyx; try easy;
    destruct (y <? z) eqn:Hyz, (z <? y) eqn:Hzy; try easy;
    rewrite ?N.ltb_lt, ?N.ltb_ge in *; intros H1 H2.
  all: try (assert ((x <? z) = true) as -> by (apply N.ltb_lt; lia); reflexivity).
  assert (x = y) by lia. assert (y = z) by lia. subst.
  rewrite N.ltb_irrefl. eauto.
Qed.

Lemma startswith_app (p s : str) : startswith p (p ++ s) = true.
Proof.
  induction p as [|c p IH]; simpl; [reflexivity|].
  now rewrite N.eqb_refl.
Qed.

Lemma startswith_inv (p s : str) :
  startswith p s = true -> exists s', s = p ++ s'.
Proof.
  revert s. induction p as [|c p IH]; intros s H; simpl in *.
  - now exists s.
  - destruct s as [|x s]; [discriminate|].
    apply andb_true_iff in H as [Hc Hp]. apply N.eqb_eq in Hc. subst.
    destruct (IH _ Hp) as [s' ->]. now exists s'.
Qed.

(** [split] undoes [join] on parts that are free of the separator. *)
Lemma split_free (sep : char) (p : str) :
  ~ In sep p -> split sep p = [p].
Proof.
  induction p as [|c p IH]; simpl; intros H; [reflexivity|].
  destruct (c =? sep) eqn:E.
  - apply N.eqb_eq in E. tauto.
  - rewrite IH by tauto. reflexivity.
Qed.

Lemma split_app_sep (sep : char) (p rest : str) :
  ~ In sep p -> split sep (p ++ sep :: rest) = p :: split sep rest.
Proof.
  induction p as [|c p IH]; simpl; intros H.
  - now rewrite N.eqb_refl.
  - destruct (c =? sep) eqn:E.
    + apply N.eqb_eq in E. tauto.
    + rewrite IH by tauto. reflexivity.
Qed.

Lemma split_join (sep : char) (parts : list str) :
  parts <> [] -> Forall (fun p => ~ In sep p) parts ->
  split sep (join [sep] parts) = parts.
Proof.
  induction parts as [|p ps IH]; [easy|]. intros _ H.
  inversion H as [|? ? Hp Hps]; subst.
  destruct ps as [|q ps].
  - simpl. now apply split_free.
  - change (join [sep] (p :: q :: ps)) with (p ++ sep :: join [sep] (q :: ps)).
    rewrite split_app_sep by assumption. f_equal. now apply IH.
Qed.

Lemma split_nonempty (sep : char) (s : str) : split sep s <> [].
Proof.
  destruct s as [|c s]; simpl; [easy|].
  destruct (c =? sep); [easy|]. now destruct (split sep s).
Qed.





(* ================================================================= *)
(** ** The matcher finds what the pattern accepts *)

Section Matcher.

Context {A : Type}.
Variables (greedy : bool) (p : cset) (k : str -> option A).

Lemma repeat_one_nil lo hi :
  repeat_one greedy lo hi p k [] = match lo with O => k [] | S _ => None end.
Proof. destruct lo; simpl; [now destruct greedy, (k [])|reflexivity]. Qed.

Lemma within_succ hi n :
  may_repeat hi = true -> within (one_less hi) n -> within hi (S n).
Proof. destruct hi as [[|h]|]; simpl; try easy. lia. Qed.

Lemma within_pred hi n :
  within hi (S n) -> may_repeat hi = true /\ within (one_less hi) n.
Proof. destruct hi as [[|h]|]; simpl; try easy; lia. Qed.

Lemma within_zero hi : within hi 0.
Proof. destruct hi; simpl; [lia|exact I]. Qed.

(** A successful repeat consumed a run of the class, of a length within
    the bounds, and the rest of the pattern matched after it. *)
Lemma repeat_one_sound s : forall lo hi x,
  repeat_one greedy lo hi p k s = Some x ->
  exists u s', s = u ++ s' /\ Forall (fun c => p c = true) u
    /\ (lo <= List.length u)%nat /\ within hi (List.length u)
    /\ k s' = Some x.
Proof.
  induction s as [|c s IH]; intros lo hi x H.
  - rewrite repeat_one_nil in H. destruct lo; [|discriminate].
    exists [], []. repeat split; auto using within_zero.
  - assert (Hmore : forall lo',
      (if p c && may_repeat hi
       then repeat_one greedy lo' (one_less hi) p k s else None) = Some x ->
      exists u s', c :: s = u ++ s' /\ Forall (fun c => p c = true) u
        /\ (S lo' <= List.length u)%nat /\ within hi (List.length u)
        /\ k s' = Some x).
    { intros lo' Hm. destruct (p c) eqn:Hc; [|discriminate].
      destruct (may_repeat hi) eqn:Hr; [|discriminate]. simpl in Hm.
      destruct (IH _ _ _ Hm) as (u & s' & -> & Hu & Hlo & Hhi & Hk).
      exists (c :: u), s'. repeat split; simpl; auto using within_succ.
      lia. }
    simpl in H. destruct lo as [|lo].
    + assert (Hstop : k (c :: s) = Some x ->
        exists u s', c :: s = u ++ s' /\ Forall (fun c => p c = true) u
          /\ (0 <= List.length u)%nat /\ within hi (List.length u)
          /\ k s' = Some x).
      { intros Hk. exists [], (c :: s).
        repeat split; auto using within_zero. }
      change (Nat.pred 0) with 0%nat in H.
      destruct greedy; unfold orelse in H.
      * destruct (if p c && may_repeat hi
                  then repeat_one true 0 (one_less hi) p k s else None)
          eqn:Hm; [|auto].
        injection H as ->.
        destruct (Hmore 0%nat Hm) as (u & s' & E & Hu & Hlo & Hrest).
        exists u, s'. repeat split; try tauto. lia.
      * destruct (k (c :: s)) eqn:Hk; [injection H as ->; auto|].
        destruct (Hmore 0%nat H) as (u & s' & E & Hu & Hlo & Hrest).
        exists u, s'. repeat split; try tauto. lia.
    + apply Hmore. exact H.
Qed.

(** When the rest of the pattern matches after some run of the class with a
    length within the bounds, the repeat succeeds. *)
Lemma repeat_one_complete u : forall lo hi s' x,
  Forall (fun c => p c = true) u ->
  (lo <= List.length u)%nat -> within hi (List.length u) ->
  k s' = Some x ->
  exists y, repeat_one greedy lo hi p k (u ++ s') = Some y.
Proof.
  induction u as [|c u IH]; intros lo hi s' x Hu Hlo Hhi Hk.
  - simpl in *. assert (lo = 0%nat) as -> by lia.
    destruct s' as [|c s']; simpl.
    + rewrite Hk. exists x. now destruct greedy.
    + rewrite Hk. unfold orelse.
      destruct greedy; [|eauto].
      destruct (if p c && may_repeat hi
                then repeat_one true 0 (one_less hi) p k s' else None); eauto.
  - inversion Hu as [|? ? Hc Hu']; subst. simpl in Hlo, Hhi.
    apply within_pred in Hhi as [Hr Hhi].
    destruct (IH (pred lo) (one_less hi) s' x Hu' ltac:(lia) Hhi Hk)
      as [y Hy].
    simpl. rewrite Hc, Hr. simpl. rewrite Hy.
    destruct lo; [|eauto]. unfold orelse.
    destruct greedy; [eauto|]. destruct (k (c :: u ++ s')); eauto.
Qed.

(** A greedy repeat without upper bound takes the whole run when the rest
    of the pattern matches after it. *)
Lemma repeat_one_greedy_all u : forall lo r x,
  greedy = true ->
  Forall (fun c => p c = true) u -> (lo <= List.length u)%nat ->
  (forall c r', r = c :: r' -> p c = false) ->
  k r = Some x ->
  repeat_one greedy lo None p k (u ++ r) = Some x.
Proof.
  intros lo r x ->. revert lo.
  induction u as [|c u IH]; intros lo Hu Hlo Hstop Hk.
  - simpl in *. assert (lo = 0%nat) as -> by lia.
    destruct r as [|c r]; simpl; rewrite Hk; [reflexivity|].
    now rewrite (Hstop c r eq_refl).
  - inversion Hu as [|? ? Hc Hu']; subst. simpl in Hlo.
    simpl. rewrite Hc. simpl.
    rewrite (IH (pred lo)) by (auto; lia). now destruct lo.
Qed.

(** A lazy repeat of at least one character stops at the first place, past
    the first character, where the rest of the pattern matches. *)
Lemma repeat_one_lazy_first c u : forall r x,
  greedy = false ->
  Forall (fun c => p c = true) (c :: u) ->
  (forall u1 u2, u = u1 ++ u2 -> u2 <> [] -> k (u2 ++ r) = None) ->
  k r = Some x ->
  repeat_one greedy 1 None p k (c :: u ++ r) = Some x.
Proof.
  intros r x -> Hall Hnot Hk.
  inversion Hall as [|? ? Hc Hu]; subst. simpl. rewrite Hc. simpl.
  clear Hall Hc. induction u as [|d u IH].
  - simpl. destruct r; simpl; now rewrite Hk.
  - inversion Hu as [|? ? Hd Hu']; subst. simpl.
    pose proof (Hnot [] (d :: u) eq_refl) as Hfail. simpl in Hfail.
    rewrite Hfail by easy. simpl. rewrite Hd. simpl.
    apply IH; [|assumption].
    intros u1 u2 -> Hne. apply (Hnot (d :: u1) u2); easy.
Qed.

End Matcher.

Lemma run_sound ops : forall m s m' r,
  run ops m s = Some (m', r) -> exists w, s = w ++ r /\ accepts ops w.
Proof.
  induction ops as [|o k IH]; intros m s m' r H; simpl in H.
  - injection H as _ ->. exists []. split; [reflexivity|constructor].
  - destruct o as [p|greedy lo hi p| |].
    + destruct s as [|c s]; [discriminate|].
      destruct (p c) eqn:Hc; [|discriminate].
      destruct (IH _ _ _ _ H) as (w & -> & Hw).
      exists (c :: w). split; [reflexivity|now constructor].
    + apply repeat_one_sound in H
        as (u & s' & -> & Hu & Hlo & Hhi & Hk).
      destruct (IH _ _ _ _ Hk) as (w & -> & Hw).
      exists (u ++ w). split; [now rewrite app_assoc|now constructor].
    + destruct (IH _ _ _ _ H) as (w & -> & Hw).
      exists w. split; [reflexivity|now constructor].
    + destruct (IH _ _ _ _ H) as (w & -> & Hw).
      exists w. split; [reflexivity|now constructor].
Qed.

Lemma run_complete ops w :
  accepts ops w -> forall m r, exists res, run ops m (w ++ r) = Some res.
Proof.
  induction 1 as [|p k c w Hc _ IH|greedy lo hi p k u w Hu Hlo Hhi _ IH
                  |k w _ IH|k w _ IH]; intros m r; simpl.
  - eauto.
  - rewrite Hc. apply IH.
  - destruct (IH m r) as [res Hres]. rewrite <- app_assoc.
    eapply repeat_one_complete; eauto.
  - apply IH.
  - apply IH.
Qed.

Lemma match_here_sound ops s g r :
  match_here ops s = Some (g, r) -> exists w, s = w ++ r /\ accepts ops w.
Proof.
  unfold match_here.
  destruct (run ops _ s) as [[m r']|] eqn:H; [|discriminate].
  intros [= _ <-]. eapply run_sound; eauto.
Qed.

Lemma match_here_complete ops w r :
  accepts ops w -> match_here ops (w ++ r) <> None.
Proof.
  intros H. unfold match_here.
  destruct (run_complete H {| at_open := []; at_close := [] |} r)
    as [[m r'] ->]. discriminate.
Qed.

Lemma search_unfold ops s :
  search ops s =
  match match_here ops s with
  | Some r => Some r
  | None => match s with [] => None | _ :: s' => search ops s' end
  end.
Proof. now destruct s. Qed.

(** [search] finds a match exactly when the text has a part that the
    pattern accepts. *)
Lemma search_some ops s g r :
  search ops s = Some (g, r) ->
  exists before w, s = before ++ w ++ r /\ accepts ops w.
Proof.
  induction s as [|c s IH]; simpl.
  - destruct (match_here ops []) as [[g' r']|] eqn:H; [|discriminate].
    intros [= -> ->]. apply match_here_sound in H as (w & E & Hw).
    exists [], w. auto.
  - destruct (match_here ops (c :: s)) as [[g' r']|] eqn:H.
    + intros [= -> ->]. apply match_here_sound in H as (w & E & Hw).
      exists [], w. auto.
    + intros H'. destruct (IH H') as (before & w & -> & Hw).
      exists (c :: before), w. auto.
Qed.

Lemma search_none ops s :
  search ops s = None <->
  (forall before w after, s = before ++ w ++ after -> ~ accepts ops w).
Proof.
  split.
  - intros H before. revert s H.
    induction before as [|c before IH]; intros s H w after -> Hw.
    + apply (match_here_complete after) in Hw.
      rewrite search_unfold in H. simpl in H.
      destruct (match_here ops (w ++ after)); congruence.
    + rewrite search_unfold in H. simpl in H.
      destruct (match_here ops _); [discriminate|].
      eapply IH; eauto.
  - intros H. destruct (search ops s) as [[g r]|] eqn:E; [|reflexivity].
    apply search_some in E as (before & w & -> & Hw).
    exfalso. eapply H; eauto.
Qed.

(** [search] returns the match at the first position that has one. *)
Lemma search_leftmost ops before : forall s res,
  match_here ops s = Some res ->
  (forall b1 b2, before = b1 ++ b2 -> b2 <> [] ->
                 match_here ops (b2 ++ s) = None) ->
  search ops (before ++ s) = Some res.
Proof.
  induction before as [|c before IH]; intros s res Hs Hnone.
  - simpl. rewrite search_unfold. now rewrite Hs.
  - rewrite search_unfold.
    pose proof (Hnone [] (c :: before) eq_refl) as Hfail. simpl in Hfail.
    simpl. rewrite Hfail by easy.
    apply IH; [assumption|].
    intros b1 b2 -> Hne. apply (Hnone (c :: b1) b2); easy.
Qed.

(* ================================================================= *)
(** ** The two patterns of the script *)

Ltac bool_cases :=
  repeat match goal with
    | |- context [N.leb ?a ?b] => destruct (N.leb_spec a b)
    | |- context [N.eqb ?a ?b] => destruct (N.eqb_spec a b)
    end.

Lemma lower_char_below c : c < 65 -> lower_char c = c.
Proof.
  intros H. unfold lower_char, in_range. bool_cases; simpl; lia.
Qed.

Lemma lower_char_into_below x c : c < 65 -> lower_char x = c -> x = c.
Proof.
  unfold lower_char, in_range. intros H.
  destruct (N.leb_spec 65 x), (N.leb_spec x 90), (N.leb_spec 192 x),
    (N.leb_spec x 222), (N.eqb_spec x 215); simpl; lia.
Qed.

(** A literal below the letters has no case: it matches itself only. *)
Lemma literal_uncased ignorecase c x :
  c < 65 -> (literal ignorecase c x = true <-> x = c).
Proof.
  intros Hc. destruct ignorecase; simpl; [|apply N.eqb_eq].
  rewrite (lower_char_below Hc).
  assert (ignorecase_fixes c = []) as ->.
  { unfold ignorecase_fixes. destruct (N.eqb_spec c 115); [lia|easy]. }
  simpl. rewrite orb_false_r, N.eqb_eq. split.
  - now apply lower_char_into_below.
  - intros ->. now apply lower_char_below.
Qed.

Lemma literal_star x : literal true star x = true <-> x = star.
Proof. now apply literal_uncased. Qed.

Lemma literal_colon x : literal true colon x = true <-> x = colon.
Proof. now apply literal_uncased. Qed.

Lemma literal_star_false x : x <> star -> literal true star x = false.
Proof.
  intros H. destruct (literal true star x) eqn:E; [|reflexivity].
  now apply literal_star in E.
Qed.

Lemma spells_app ignorecase l1 : forall l2 s,
  spells ignorecase (l1 ++ l2) s = true <->
  exists s1 s2, s = s1 ++ s2 /\ spells ignorecase l1 s1 = true
                /\ spells ignorecase l2 s2 = true.
Proof.
  induction l1 as [|c l1 IH]; intros l2 s; simpl.
  - split.
    + intros H. exists [], s. auto.
    + intros ([|? ?] & s2 & -> & H1 & H2); [assumption|discriminate].
  - destruct s as [|x s].
    + split; [discriminate|].
      intros ([|? ?] & s2 & E & H1 & H2); discriminate.
    + rewrite andb_true_iff, IH. split.
      * intros (Hx & s1 & s2 & -> & H1 & H2).
        exists (x :: s1), s2. simpl. rewrite Hx, H1. auto.
      * intros ([|y s1] & s2 & E & H1 & H2); [discriminate|].
        simpl in E. injection E as -> ->.
        apply andb_true_iff in H1 as [Hx H1]. eauto 6.
Qed.

Lemma accepts_ones ignorecase lits k : forall w,
  accepts (ones ignorecase lits ++ k) w <->
  exists w1 w2, w = w1 ++ w2 /\ spells ignorecase lits w1 = true
                /\ accepts k w2.
Proof.
  induction lits as [|c lits IH]; intros w; simpl.
  - split.
    + intros H. exists [], w. auto.
    + intros ([|? ?] & w2 & -> & H1 & H2); [assumption|discriminate].
  - split.
    + intros H. inversion H as [|? ? x w' Hx Hw| | |]; subst.
      apply IH in Hw as (w1 & w2 & -> & H1 & H2).
      exists (x :: w1), w2. simpl. rewrite Hx, H1. auto.
    + intros ([|x w1] & w2 & -> & H1 & H2); [discriminate|].
      apply andb_true_iff in H1 as [Hx H1]. simpl.
      constructor; [assumption|]. apply IH. eauto.
Qed.

Lemma run_ones ignorecase lits k m : forall w s,
  spells ignorecase lits w = true ->
  run (ones ignorecase lits ++ k) m (w ++ s) = run k m s.
Proof.
  induction lits as [|c lits IH]; intros [|x w] s H; simpl in *;
    try discriminate; [reflexivity|].
  apply andb_true_iff in H as [-> H]. now apply IH.
Qed.

Lemma AUTHOR_PATTERN_eq :
  AUTHOR_PATTERN
  = One (literal true star) :: ones true (txt "Author") ++ after_author.
Proof. reflexivity. Qed.

Lemma Authors_eq : txt "Authors" = txt "Author" ++ [115].
Proof. reflexivity. Qed.

Lemma is_keyword_inv kw :
  is_keyword kw = true <->
  exists w s, kw = w ++ s /\ spells true (txt "Author") w = true
    /\ (s = [] \/ exists x, s = [x] /\ literal true 115 x = true).
Proof.
  unfold is_keyword. rewrite orb_true_iff, Authors_eq, spells_app. split.
  - intros [H|(w & s & -> & Hw & Hs)].
    + exists kw, []. rewrite app_nil_r. auto.
    + exists w, s. repeat split; auto. right.
      destruct s as [|x [|? ?]]; cbn [spells] in Hs; try discriminate.
      * exists x. split; [reflexivity|].
        now apply andb_true_iff in Hs as [-> _].
      * now rewrite andb_false_r in Hs.
  - intros (w & s & -> & Hw & [->|(x & -> & Hx)]).
    + left. now rewrite app_nil_r.
    + right. exists w, [x]. cbn [spells]. rewrite Hx. auto.
Qed.

Lemma any_not_newline u :
  Forall (fun c => any c = true) u <-> ~ In newline u.
Proof.
  unfold any. induction u as [|c u IH]; simpl.
  - split; [tauto|constructor].
  - split.
    + intros H. inversion H as [|? ? Hc Hu]; subst.
      apply negb_true_iff, N.eqb_neq in Hc. apply IH in Hu. intuition.
    + intros H. constructor.
      * apply negb_true_iff, N.eqb_neq. intuition.
      * apply IH. tauto.
Qed.

(** [AUTHOR_PATTERN] accepts the attribution markers, and nothing else. *)
Lemma accepts_AUTHOR_PATTERN w : accepts AUTHOR_PATTERN w <-> marker w.
Proof.
  rewrite AUTHOR_PATTERN_eq. unfold marker, after_author. split.
  - intros H. inversion H as [|? ? c0 w0 Hc0 Hw0| | |]; subst; clear H.
    apply literal_star in Hc0 as ->.
    apply (proj1 (accepts_ones true (txt "Author") after_author w0)) in Hw0
      as (w6 & w1 & -> & Hw6 & H).
    unfold after_author in H.
    inversion H as [| |? ? ? ? ? us w2 Hus _ Hhi H2| |]; subst; clear H.
    inversion H2 as [|? ? cc w3 Hcc H3| | |]; subst; clear H2.
    apply literal_colon in Hcc as ->.
    inversion H3 as [| |? ? ? ? ? ws w4 Hws _ _ H4| |]; subst; clear H3.
    inversion H4 as [| | |? ? H5|]; subst; clear H4.
    inversion H5 as [| |? ? ? ? ? body w6' Hbody Hlo _ H6| |]; subst; clear H5.
    inversion H6 as [| | | |? ? H7]; subst; clear H6.
    inversion H7 as [|? ? cs w8 Hcs H8| | |]; subst; clear H7.
    apply literal_star in Hcs as ->.
    inversion H8; subst; clear H8.
    exists (w6 ++ us), ws, body. repeat split.
    + now rewrite <- !app_assoc.
    + apply is_keyword_inv. exists w6, us. repeat split; auto.
      destruct us as [|x [|? ?]]; simpl in Hhi; [auto| |lia].
      right. exists x. split; [reflexivity|]. now inversion Hus.
    + exact Hws.
    + destruct body; simpl in Hlo; [lia|discriminate].
    + now apply any_not_newline.
  - intros (kw & ws & body & -> & Hkw & Hws & Hne & Hnl).
    apply is_keyword_inv in Hkw as (w6 & us & -> & Hw6 & Hus).
    constructor; [now apply literal_star|].
    rewrite <- app_assoc. apply accepts_ones. exists w6, (us ++ colon :: ws ++ body ++ [star]).
    repeat split; [assumption|].
    constructor.
    + destruct Hus as [->|(x & -> & Hx)]; repeat constructor; assumption.
    + lia.
    + destruct Hus as [->|(x & -> & Hx)]; simpl; lia.
    + constructor; [now apply literal_colon|].
      constructor; [assumption|lia|exact I|].
      constructor. constructor.
      * now apply any_not_newline.
      * destruct body; [easy|simpl; lia].
      * exact I.
      * constructor. constructor; [now apply literal_star|constructor].
Qed.

(** A document contains a marker exactly when the search of
    [extract_authors_from_file] finds a match. *)
Lemma search_AUTHOR_PATTERN_none content :
  search AUTHOR_PATTERN content = None <-> ~ contains_marker content.
Proof.
  rewrite search_none. unfold contains_marker. split.
  - intros H (before & w & after & E & Hw).
    apply (H _ _ _ E). now apply accepts_AUTHOR_PATTERN.
  - intros H before w after E Hw. apply H.
    exists before, w, after. split; [assumption|].
    now apply accepts_AUTHOR_PATTERN.
Qed.

#[local] Arguments literal ignorecase c x : simpl never.

Lemma group1_app body rest m :
  at_open m = body ++ rest -> at_close m = rest -> group1 m = body.
Proof.
  unfold group1. intros -> ->. rewrite length_app.
  replace (List.length body + List.length rest - List.length rest)%nat
    with (List.length body + 0)%nat by lia.
  now rewrite firstn_app_2, app_nil_r.
Qed.

(** The optional [s] of the keyword. *)
Lemma run_optional_s k m s x rest res :
  (s = [] \/ s = [x] /\ literal true 115 x = true) ->
  run k m (colon :: rest) = Some res ->
  run (Repeat true 0 (Some 1%nat) (literal true 115) :: k) m
      (s ++ colon :: rest) = Some res.
Proof.
  intros [->|[-> Hx]] Hk; simpl.
  - now rewrite Hk.
  - rewrite Hx. simpl. now rewrite Hk.
Qed.

(** A marker whose body starts with no blank and holds no star: the match
    at its head captures the body and ends after the closing star. *)
Lemma match_here_marker kw ws body after :
  is_keyword kw = true ->
  Forall (fun c => isspace c = true) ws ->
  body <> [] -> ~ In newline body -> ~ In star body ->
  (forall c b, body = c :: b -> isspace c = false) ->
  match_here AUTHOR_PATTERN
    (star :: kw ++ colon :: ws ++ body ++ star :: after)
  = Some (body, after).
Proof.
  intros Hkw Hws Hne Hnl Hst Hhead.
  apply is_keyword_inv in Hkw as (w6 & s & -> & Hw6 & Hs).
  unfold match_here. rewrite AUTHOR_PATTERN_eq.
  set (m0 := {| at_open := []; at_close := [] |}).
  set (input := body ++ star :: after).
  set (m1 := {| at_open := input; at_close := at_close m0 |}).
  set (m2 := {| at_open := at_open m1; at_close := star :: after |}).
  assert (Hrun : run (One (literal true star) :: ones true (txt "Author")
                        ++ after_author) m0
                   (star :: (w6 ++ s) ++ colon :: ws ++ input)
                 = Some (m2, after)).
  { cbn [run]. rewrite (proj2 (literal_star star) eq_refl).
    rewrite <- app_assoc. rewrite run_ones by exact Hw6.
    unfold after_author.
    assert (Hs' : s = [] \/ s = [hd 0 s] /\ literal true 115 (hd 0 s) = true).
    { destruct Hs as [->|(x & -> & Hx)]; auto. }
    apply run_optional_s with (x := hd 0 s); [exact Hs'|].
    cbn [run]. rewrite (proj2 (literal_colon colon) eq_refl).
    apply repeat_one_greedy_all; [reflexivity|assumption|simpl; lia| |].
    { subst input. destruct body as [|c b]; [easy|].
      intros c' r' [= <- <-]. now apply (Hhead c b). }
    cbn [run]. fold m1. subst input.
    destruct body as [|c b]; [easy|]. simpl app.
    apply repeat_one_lazy_first;
      [ reflexivity
      | now apply any_not_newline
      | intros u1 [|d u2] -> Hu2; [easy|]; cbn [run app];
        rewrite literal_star_false; [reflexivity|];
        intros ->; apply Hst; right; apply in_or_app; right; now left
      | cbn [run]; now rewrite (proj2 (literal_star star) eq_refl) ]. }
  rewrite Hrun. f_equal. f_equal.
  now apply group1_app with (rest := star :: after).
Qed.

Lemma match_here_AUTHOR_PATTERN_first c s :
  c <> star -> match_here AUTHOR_PATTERN (c :: s) = None.
Proof.
  intros H. unfold match_here. simpl. now rewrite literal_star_false.
Qed.

(** Text without a star before a marker is passed by the search. *)
Lemma search_after_starless before s :
  ~ In star before ->
  search AUTHOR_PATTERN (before ++ s) = search AUTHOR_PATTERN s.
Proof.
  induction before as [|c before IH]; intros H; [reflexivity|].
  simpl app. rewrite search_unfold.
  rewrite match_here_AUTHOR_PATTERN_first by (simpl in H; intuition).
  apply IH. simpl in H. tauto.
Qed.

Lemma search_marker before kw ws body after :
  ~ In star before ->
  is_keyword kw = true ->
  Forall (fun c => isspace c = true) ws ->
  body <> [] -> ~ In newline body -> ~ In star body ->
  (forall c b, body = c :: b -> isspace c = false) ->
  search AUTHOR_PATTERN
    (before ++ star :: kw ++ colon :: ws ++ body ++ star :: after)
  = Some (body, after).
Proof.
  intros Hb Hkw Hws Hne Hnl Hst Hhead.
  rewrite search_after_starless by assumption.
  rewrite search_unfold. now rewrite match_here_marker.
Qed.

(** *** Links *)

Lemma not_literal_all c u :
  Forall (fun x => not_literal c x = true) u <-> ~ In c u.
Proof.
  unfold not_literal. induction u as [|d u IH]; simpl.
  - split; [tauto|constructor].
  - split.
    + intros H. inversion H as [|? ? Hd Hu]; subst.
      apply negb_true_iff, N.eqb_neq in Hd. apply IH in Hu. intuition.
    + intros H. constructor.
      * apply negb_true_iff, N.eqb_neq. intuition.
      * apply IH. tauto.
Qed.









(** *** The matcher on some texts *)

Example search_backtracks_on_blanks :
  search AUTHOR_PATTERN (txt "*AUTHORS:  *") = Some (txt " ", []).
Proof. vm_compute. reflexivity. Qed.

Example search_body_may_start_with_star :
  search AUTHOR_PATTERN (txt "*AUTHORS:  *x*") = Some (txt "*x", []).
Proof. vm_compute. reflexivity. Qed.

Example search_blanks_span_lines :
  search AUTHOR_PATTERN (txt "*Author:" ++ [newline; newline] ++ txt " x*")
  = Some (txt "x", []).
Proof. vm_compute. reflexivity. Qed.

Example search_body_on_one_line :
  search AUTHOR_PATTERN (txt "*Author: a" ++ [newline] ++ txt "*") = None.
Proof. vm_compute. reflexivity. Qed.

Example search_second_position :
  search AUTHOR_PATTERN (txt "*Authorss: x* *Author: y*")
  = Some (txt "y", []).
Proof. vm_compute. reflexivity. Qed.

Example search_long_s :
  search AUTHOR_PATTERN (txt "*author" ++ [383] ++ txt ": a*")
  = Some (txt "a", []).
Proof. vm_compute. reflexivity. Qed.

Example search_second_colon :
  search AUTHOR_PATTERN (txt "*Authors:: x*") = Some (txt ": x", []).
Proof. vm_compute. reflexivity. Qed.

Example findall_links :
  findall AUTHOR_LINK_PATTERN
    (txt "[Ada](x.md#ada), [Bo](y.md#bo) [[q](r) [a]() [b](c")
  = [txt "Ada"; txt "Bo"; txt "[q"].
Proof. vm_compute. reflexivity. Qed.

Example findall_across_lines :
  findall AUTHOR_LINK_PATTERN
    (txt "[a" ++ [newline] ++ txt "b](c" ++ [newline] ++ txt "d) []](x) [a](b))")
  = [txt "a" ++ [newline] ++ txt "b"; txt "a"].
Proof. vm_compute. reflexivity. Qed.

Example title_words : title (txt "john o'neil_x") = txt "John O'Neil_X".
Proof. reflexivity. Qed.

Example replace_all_occurrences :
  replace (txt "_name") [] (txt "a_name_b_name") = txt "a_b".
Proof. reflexivity. Qed.

Example split_keeps_empty_parts :
  split comma (txt "Ada, Bo,") = [txt "Ada"; txt " Bo"; []].
Proof. reflexivity. Qed.

(* ================================================================= *)
(** ** The attribution extractor *)

Lemma extract_of_search filepath content author_text rest :
  read_text filepath = inl content ->
  search AUTHOR_PATTERN content = Some (author_text, rest) ->
  extract_authors_from_file filepath = ret (names_of_marker author_text).
Proof.
  intros Hread Hsearch. unfold extract_authors_from_file.
  now rewrite Hread, Hsearch.
Qed.

Lemma names_of_marker_links author_text :
  findall AUTHOR_LINK_PATTERN author_text <> [] ->
  names_of_marker author_text
  = map lower (findall AUTHOR_LINK_PATTERN author_text).
Proof.
  unfold names_of_marker.
  now destruct (findall AUTHOR_LINK_PATTERN author_text).
Qed.

Lemma names_of_marker_plain author_text :
  findall AUTHOR_LINK_PATTERN author_text = [] ->
  names_of_marker author_text
  = map (fun a => lower (strip a)) (split comma author_text).
Proof. unfold names_of_marker. now intros ->. Qed.


(** When the marker text of a document holds markdown links, the extractor
    returns the display texts of the links, in order and in lower case. *)
Lemma extract_links filepath content author_text rest :
  read_text filepath = inl content ->
  search AUTHOR_PATTERN content = Some (author_text, rest) ->
  findall AUTHOR_LINK_PATTERN author_text <> [] ->
  extract_authors_from_file filepath
  = ret (map lower (findall AUTHOR_LINK_PATTERN author_text)).
Proof.
  intros Hread Hsearch Hlinks.
  rewrite (extract_of_search _ Hread Hsearch).
  now rewrite names_of_marker_links.
Qed.

Example extract_links_Ada_Bo :
  extract_authors_from_file
    (md "05-optimization"
       (lines_text [ "# Optimization"; "";
                     "*Author: [Ada](x.md#ada), [Bo](y.md#bo)*"; "";
                     "Text." ]))
  = ret [txt "ada"; txt "bo"].
Proof. vm_compute. reflexivity. Qed.

(** C1, where the code departs from it.  The names of the link branch are
    put in lower case and not trimmed, while those of the comma branch are
    both: for the marker [*Author: [ Ada ](x.md#ada)*] the extractor
    returns the display text with its blanks, [" ada "], and not
    ["ada"]. *)
Theorem extract_links_not_trimmed :
  search AUTHOR_PATTERN (txt "*Author: [ Ada ](x.md#ada)*")
  = Some (txt "[ Ada ](x.md#ada)", [])
  /\ findall AUTHOR_LINK_PATTERN (txt "[ Ada ](x.md#ada)") = [txt " Ada "]
  /\ extract_authors_from_file (md "a" (txt "*Author: [ Ada ](x.md#ada)*"))
     = ret [txt " ada "]
  /\ lower (strip (txt " Ada ")) = txt "ada"
  /\ names_of_marker (txt " Ada ") = [txt "ada"].
Proof. repeat split; vm_compute; reflexivity. Qed.

(** C3.  When the marker text of a document holds no markdown link, the
    extractor returns the names that the commas separate, each trimmed and
    in lower case; for [*Authors: Ada, Bo*] the result is
    [["ada"; "bo"]]. *)
Theorem extract_plain_names :
  (forall filepath content author_text rest names,
     read_text filepath = inl content ->
     search AUTHOR_PATTERN content = Some (author_text, rest) ->
     findall AUTHOR_LINK_PATTERN author_text = [] ->
     author_text = join [comma] names ->
     names <> [] -> Forall (fun n => ~ In comma n) names ->
     extract_authors_from_file filepath
     = ret (map (fun a => lower (strip a)) names))
  /\ extract_authors_from_file
       (md "02-setup" (lines_text ["# Setup"; ""; "*Authors: Ada, Bo*"]))
     = ret [txt "ada"; txt "bo"].
Proof.
  split.
  - intros filepath content author_text rest names
      Hread Hsearch Hplain -> Hne Hnames.
    rewrite (extract_of_search _ Hread Hsearch).
    rewrite names_of_marker_plain by assumption.
    now rewrite split_join.
  - vm_compute. reflexivity.
Qed.

Ltac not_in_list :=
  simpl; intros H;
  repeat (destruct H as [H|H]; [discriminate H|]); exact H.

Lemma extract_plain_names_witness :
  extract_authors_from_file (md "a" (txt "*author:  Cy ,Dee*"))
  = ret [txt "cy"; txt "dee"].
Proof.
  refine (proj1 extract_plain_names
            (md "a" (txt "*author:  Cy ,Dee*"))
            (txt "*author:  Cy ,Dee*") (txt "Cy ,Dee") []
            [txt "Cy "; txt "Dee"] eq_refl eq_refl eq_refl eq_refl _ _).
  - discriminate.
  - repeat constructor; not_in_list.
Defined.



(** C10.  The extractor uses the marker match at the earliest position of
    the document: when a match starts where no earlier position has one, the
    names are those of that match; and after a first marker whose body
    holds no star and starts with no blank, the rest of the document, later
    markers included, changes nothing. *)
Theorem extract_first_marker_only :
  (forall filepath before s author_text rest,
     read_text filepath = inl (before ++ s) ->
     match_here AUTHOR_PATTERN s = Some (author_text, rest) ->
     (forall b1 b2, before = b1 ++ b2 -> b2 <> [] ->
                    match_here AUTHOR_PATTERN (b2 ++ s) = None) ->
     extract_authors_from_file filepath = ret (names_of_marker author_text))
  /\ (forall filepath before kw ws body after,
        read_text filepath
        = inl (before ++ star :: kw ++ colon :: ws ++ body ++ star :: after) ->
        ~ In star before ->
        is_keyword kw = true ->
        Forall (fun c => isspace c = true) ws ->
        body <> [] -> ~ In newline body -> ~ In star body ->
        (forall c b, body = c :: b -> isspace c = false) ->
        extract_authors_from_file filepath = ret (names_of_marker body))
  /\ extract_authors_from_file
       (md "04-electricity-markets"
          (lines_text [ "# Markets"; "*Author: Ada*"; "";
                        "*Authors: [Bo](x.md#bo), Cy*" ]))
     = ret [txt "ada"].
Proof.
  split; [|split].
  - intros filepath before s author_text rest Hread Hmatch Hfirst.
    apply (extract_of_search _ Hread (rest := rest)).
    now apply search_leftmost.
  - intros filepath before kw ws body after
      Hread Hbefore Hkw Hws Hne Hnl Hstar Hhead.
    apply (extract_of_search _ Hread (rest := after)).
    now apply search_marker.
  - vm_compute. reflexivity.
Qed.

Lemma extract_first_marker_only_witness :
  extract_authors_from_file
    (md "a" (txt "*Author: Ada* *Authors: Bo*"))
  = ret [txt "ada"].
Proof.
  refine (proj1 (proj2 extract_first_marker_only)
            (md "a" (txt "*Author: Ada* *Authors: Bo*"))
            [] (txt "Author") (txt " ") (txt "Ada") (txt " *Authors: Bo*")
            eq_refl _ eq_refl _ _ _ _ _).
  - not_in_list.
  - repeat constructor.
  - discriminate.
  - not_in_list.
  - not_in_list.
  - intros c b [= <- _]. reflexivity.
Defined.

Lemma extract_no_marker filepath content :
  read_text filepath = inl content ->
  ~ contains_marker content ->
  extract_authors_from_file filepath = ret [].
Proof.
  intros Hread Hnone. apply search_AUTHOR_PATTERN_none in Hnone.
  unfold extract_authors_from_file. now rewrite Hread, Hnone.
Qed.

(* ================================================================= *)
(** ** The title *)

Lemma first_h1_none lines :
  Forall (fun l => is_h1 l = false) lines -> first_h1 lines = None.
Proof.
  induction 1 as [|l lines Hl _ IH]; [reflexivity|].
  cbn [first_h1]. now rewrite Hl.
Qed.

Lemma first_h1_first before text after :
  Forall (fun l => is_h1 l = false) before ->
  first_h1 (before ++ (txt "# " ++ text) :: after) = Some (strip text).
Proof.
  induction 1 as [|l lines Hl _ IH].
  - cbn [app first_h1]. unfold is_h1. now rewrite startswith_app.
  - cbn [app first_h1]. now rewrite Hl.
Qed.

(** C4.  The title is the trimmed text after the [# ] of the first line
    that starts with it, whatever lines follow; a document without such a
    line, or one that cannot be read, has its file stem as title. *)
Theorem get_article_title_first_h1 :
  (forall filepath before text after,
     read_text filepath
     = inl (join [newline] (before ++ (txt "# " ++ text) :: after)) ->
     Forall (fun l => ~ In newline l)
       (before ++ (txt "# " ++ text) :: after) ->
     Forall (fun l => is_h1 l = false) before ->
     get_article_title filepath = strip text)
  /\ (forall filepath lines,
        read_text filepath = inl (join [newline] lines) ->
        lines <> [] -> Forall (fun l => ~ In newline l) lines ->
        Forall (fun l => is_h1 l = false) lines ->
        get_article_title filepath = stem filepath)
  /\ (forall filepath e,
        read_text filepath = inr e ->
        get_article_title filepath = stem filepath)
  /\ get_article_title
       (md "grid"
          (lines_text [ "# Grid Basics"; ""; "## Voltage"; "### Details";
                        "# Another title" ]))
     = txt "Grid Basics".
Proof.
  repeat split.
  - intros filepath before text after Hread Hlines Hbefore.
    unfold get_article_title. rewrite Hread.
    rewrite split_join; [|now destruct before|assumption].
    now rewrite first_h1_first.
  - intros filepath lines Hread Hne Hlines Hnone.
    unfold get_article_title. rewrite Hread.
    rewrite split_join by assumption.
    now rewrite first_h1_none.
  - intros filepath e Hread. unfold get_article_title. now rewrite Hread.
Qed.

Lemma get_article_title_first_h1_witness :
  get_article_title
    (md "a" (lines_text ["## Not this"; "#  The Title  "; "# Later"]))
  = txt "The Title".
Proof.
  refine (proj1 get_article_title_first_h1
            (md "a" (lines_text ["## Not this"; "#  The Title  "; "# Later"]))
            [txt "## Not this"] (txt " The Title  ") [txt "# Later"]
            eq_refl _ _).
  - repeat constructor; not_in_list.
  - repeat constructor.
Defined.

(* ================================================================= *)
(** ** Effects *)

Lemma bind_ret_l {A B} (a : A) (k : A -> IO B) : bind (ret a) k = k a.
Proof. unfold bind, ret. now destruct (k a). Qed.

Lemma value_bind {A B} (m : IO A) (k : A -> IO B) :
  value (bind m k) = value (k (value m)).
Proof. destruct m as [a t]. simpl. now destruct (k a). Qed.

Lemma trace_bind {A B} (m : IO A) (k : A -> IO B) :
  trace (bind m k) = trace m ++ trace (k (value m)).
Proof. destruct m as [a t]. simpl. now destruct (k a). Qed.

Lemma bind_assoc {A B C} (m : IO A) (k : A -> IO B) (h : B -> IO C) :
  bind (bind m k) h = bind m (fun a => bind (k a) h).
Proof.
  destruct m as [a t]. simpl. destruct (k a) as [b t']. simpl.
  destruct (h b) as [c t'']. now rewrite app_assoc.
Qed.

(* ================================================================= *)
(** ** The corpus scanner *)

Lemma get_map_values {V W} (f : V -> W) k (d : dict V) :
  get k (map (fun kv => (fst kv, f (snd kv))) d) = option_map f (get k d).
Proof.
  induction d as [|[k' v] d IH]; [reflexivity|].
  simpl. now destruct (str_eqb k k').
Qed.

Lemma value_scan_articles files :
  value (scan_articles files)
  = map (fun kv => (fst kv, sort_by_stem (snd kv)))
      (value (scan_files [] files)).
Proof. unfold scan_articles. now rewrite value_bind. Qed.

Lemma stem_le_total a b : ~ stem_le a b -> stem_le b a.
Proof.
  unfold stem_le. intros H. apply str_leb_total.
  now destruct (str_leb (entry_stem a) (entry_stem b)).
Qed.

Lemma stem_le_trans a b c : stem_le a b -> stem_le b c -> stem_le a c.
Proof. unfold stem_le. apply str_leb_trans. Qed.

Lemma insert_by_stem_hd x a l :
  stem_le a x -> HdRel stem_le a l -> HdRel stem_le a (insert_by_stem x l).
Proof.
  intros Hax Hl. destruct l as [|y l]; simpl.
  - now constructor.
  - destruct (str_leb (entry_stem x) (entry_stem y));
      constructor; [assumption|now inversion Hl].
Qed.

Lemma insert_by_stem_sorted x l :
  Sorted stem_le l -> Sorted stem_le (insert_by_stem x l).
Proof.
  induction 1 as [|y l Hl IH Hy]; simpl.
  - repeat constructor.
  - destruct (str_leb (entry_stem x) (entry_stem y)) eqn:E.
    + constructor; [now constructor|now constructor].
    + constructor; [assumption|].
      apply insert_by_stem_hd; [|assumption].
      apply stem_le_total. unfold stem_le. now rewrite E.
Qed.

Lemma sort_by_stem_sorted l : StronglySorted stem_le (sort_by_stem l).
Proof.
  apply Sorted_StronglySorted.
  - intros a b c. apply stem_le_trans.
  - induction l as [|x l IH]; simpl; [constructor|].
    now apply insert_by_stem_sorted.
Qed.

Lemma insert_by_stem_perm x l : Permutation (x :: l) (insert_by_stem x l).
Proof.
  induction l as [|y l IH]; simpl; [reflexivity|].
  destruct (str_leb (entry_stem x) (entry_stem y)); [reflexivity|].
  rewrite perm_swap. now constructor.
Qed.

(** Sorting keeps the entries. *)
Lemma sort_by_stem_perm l : Permutation l (sort_by_stem l).
Proof.
  induction l as [|x l IH]; simpl; [constructor|].
  rewrite <- insert_by_stem_perm. now constructor.
Qed.

(** C5.  In the index that the scanner returns, the entries of every
    author are in ascending order of their file stems. *)
Theorem scan_articles_sorted files author articles :
  get author (value (scan_articles files)) = Some articles ->
  StronglySorted stem_le articles.
Proof.
  rewrite value_scan_articles, get_map_values.
  destruct (get author (value (scan_files [] files))) as [l|];
    [|discriminate].
  intros [= <-]. apply sort_by_stem_sorted.
Qed.

Lemma scan_articles_sorted_witness :
  StronglySorted stem_le
    [ (txt "06-capacity-expansion", txt "06-capacity-expansion",
       txt "Modelling Techniques");
      (txt "Alpha", txt "Alpha", txt "Other");
      (txt "zeta", txt "zeta", txt "Other") ].
Proof.
  exact (@scan_articles_sorted unsorted_files (txt "bo") _ eq_refl).
Defined.

Lemma bind_ext {A B} (m : IO A) (k k' : A -> IO B) :
  (forall a, k a = k' a) -> bind m k = bind m k'.
Proof. intros H. destruct m as [a t]. simpl. now rewrite H. Qed.

(** A file that credits nobody leaves the index as it is. *)
Lemma scan_file_unattributed d md_file :
  extract_authors_from_file md_file = ret [] -> scan_file d md_file = ret d.
Proof.
  intros H. unfold scan_file. destruct (skipped md_file); [reflexivity|].
  rewrite H, bind_ret_l. reflexivity.
Qed.

Lemma scan_files_unattributed md_file files1 : forall files2 d,
  extract_authors_from_file md_file = ret [] ->
  scan_files d (files1 ++ md_file :: files2) = scan_files d (files1 ++ files2).
Proof.
  induction files1 as [|f files1 IH]; intros files2 d H; cbn [app scan_files].
  - now rewrite scan_file_unattributed, bind_ret_l.
  - apply bind_ext. intros d'. now apply IH.
Qed.

(** C8.  A document whose text contains no attribution marker has an empty
    list of authors, reported without any message, and the index of a
    directory that holds it is the index of the directory without it. *)
Theorem unattributed_document filepath content :
  read_text filepath = inl content ->
  ~ contains_marker content ->
  extract_authors_from_file filepath = ret []
  /\ forall files1 files2,
       scan_articles (files1 ++ filepath :: files2)
       = scan_articles (files1 ++ files2).
Proof.
  intros Hread Hnone.
  pose proof (extract_no_marker _ Hread Hnone) as Hextract.
  split; [assumption|].
  intros files1 files2. unfold scan_articles.
  now rewrite scan_files_unattributed.
Qed.

Lemma unattributed_document_witness :
  extract_authors_from_file
    (md "notes" (lines_text ["# Notes"; ""; "*Some* emphasised text."]))
  = ret []
  /\ forall files1 files2,
       scan_articles
         (files1
          ++ md "notes" (lines_text ["# Notes"; ""; "*Some* emphasised text."])
          :: files2)
       = scan_articles (files1 ++ files2).
Proof.
  refine (@unattributed_document
            (md "notes" (lines_text ["# Notes"; ""; "*Some* emphasised text."]))
            (lines_text ["# Notes"; ""; "*Some* emphasised text."])
            eq_refl _).
  apply search_AUTHOR_PATTERN_none. vm_compute. reflexivity.
Defined.

(* ================================================================= *)
(** ** The renderer and the orchestrator *)

Lemma in_keys_get {V} k (d : dict V) : In k (keys d) <-> get k d <> None.
Proof.
  induction d as [|[k' v] d IH]; simpl.
  - tauto.
  - destruct (str_eqb k k') eqn:E.
    + apply str_eqb_eq in E. subst. split; [discriminate|auto].
    + apply str_eqb_neq in E. rewrite <- IH. intuition congruence.
Qed.

Lemma output_file_inj a b : output_file a = output_file b -> a = b.
Proof.
  unfold output_file. intros H.
  apply app_inv_head in H. now apply app_inv_tail in H.
Qed.

Lemma in_trace_for_each {A} (xs : list A) body e :
  In e (trace (for_each xs body)) <->
  exists x, In x xs /\ In e (trace (body x)).
Proof.
  induction xs as [|x xs IH]; simpl.
  - split; [tauto|]. now intros (? & [] & _).
  - rewrite trace_bind, in_app_iff, IH. split.
    + intros [H|(y & Hy & H)]; eauto.
    + intros (y & [<-|Hy] & H); eauto.
Qed.

Lemma page_of_nonempty author_id author articles :
  nonempty (page_of author_id author articles) = true.
Proof. reflexivity. Qed.

Lemma generate_registered AUTHORS author_id author articles :
  get author_id AUTHORS = Some author ->
  generate_author_page AUTHORS author_id articles
  = ret (page_of author_id author articles).
Proof. unfold generate_author_page. now intros ->. Qed.

Lemma generate_unregistered AUTHORS author_id articles :
  get author_id AUTHORS = None ->
  generate_author_page AUTHORS author_id articles
  = ([], [Stdout (warning author_id)]).
Proof. unfold generate_author_page. now intros ->. Qed.

Lemma trace_write_page AUTHORS index author_id :
  trace (write_page AUTHORS index author_id)
  = match get author_id AUTHORS with
    | Some author =>
        [ WriteText (output_file author_id)
            (page_of author_id author (get_default author_id index []));
          Stdout (txt "Generated: " ++ path_name (output_file author_id)) ]
    | None => [Stdout (warning author_id)]
    end.
Proof.
  unfold write_page.
  destruct (get author_id AUTHORS) as [author|] eqn:E.
  - rewrite generate_registered with (author := author) by exact E.
    rewrite bind_ret_l. now rewrite page_of_nonempty.
  - now rewrite generate_unregistered by exact E.
Qed.

Lemma extract_prints_only filepath e :
  In e (trace (extract_authors_from_file filepath)) -> ~ is_write e.
Proof.
  unfold extract_authors_from_file.
  destruct (read_text filepath) as [content|msg].
  - destruct (search AUTHOR_PATTERN content) as [[? ?]|]; simpl; tauto.
  - simpl. intros [<-|[]]. simpl. tauto.
Qed.

Lemma scan_file_prints_only d md_file e :
  In e (trace (scan_file d md_file)) -> ~ is_write e.
Proof.
  unfold scan_file. destruct (skipped md_file); [simpl; tauto|].
  rewrite trace_bind. simpl. rewrite app_nil_r.
  apply extract_prints_only.
Qed.

Lemma scan_files_prints_only files : forall d e,
  In e (trace (scan_files d files)) -> ~ is_write e.
Proof.
  induction files as [|f files IH]; intros d e; simpl; [tauto|].
  rewrite trace_bind, in_app_iff. intros [H|H].
  - eapply scan_file_prints_only; eauto.
  - eapply IH; eauto.
Qed.

Lemma scan_articles_prints_only files e :
  In e (trace (scan_articles files)) -> ~ is_write e.
Proof.
  unfold scan_articles. rewrite trace_bind. simpl. rewrite app_nil_r.
  apply scan_files_prints_only.
Qed.

(** What [main] does, in order. *)
Lemma trace_main AUTHORS files :
  let index := value (scan_articles files) in
  trace (main AUTHORS files)
  = Stdout (txt "Scanning articles for author attribution...")
    :: trace (scan_articles files)
    ++ Stdout (txt "Found articles for "
              ++ str_of_nat (List.length index) ++ txt " authors:")
    :: trace (for_each index
                (fun kv =>
                   print (txt "  - " ++ fst kv ++ txt ": "
                          ++ str_of_nat (List.length (snd kv))
                          ++ txt " articles")))
    ++ trace (for_each (keys AUTHORS) (write_page AUTHORS index))
    ++ [Stdout (newline
               :: txt "Done! Run 'jupyter-book build energy_modelling_notes' to build the book.")].
Proof.
  intros index. unfold main.
  rewrite !trace_bind. reflexivity.
Qed.

(** Every file that [main] writes is the page of an author of the
    registry. *)
Lemma main_writes AUTHORS files path content :
  In (WriteText path content) (trace (main AUTHORS files)) <->
  exists author_id author,
    In author_id (keys AUTHORS)
    /\ get author_id AUTHORS = Some author
    /\ path = output_file author_id
    /\ content
       = page_of author_id author
           (get_default author_id (value (scan_articles files)) []).
Proof.
  rewrite trace_main. cbv zeta. split.
  - intros [H|H]; [discriminate|].
    apply in_app_or in H as [H|[H|H]];
      [exfalso; apply (scan_articles_prints_only _ _ H); exact I
      |discriminate|].
    apply in_app_or in H as [H|H].
    { apply in_trace_for_each in H as (kv & _ & [H|[]]). discriminate. }
    apply in_app_or in H as [H|[H|[]]]; [|discriminate].
    apply in_trace_for_each in H as (author_id & Hin & H).
    rewrite trace_write_page in H.
    destruct (get author_id AUTHORS) as [author|] eqn:E.
    + destruct H as [[= <- <-]|[H|[]]]; [|discriminate].
      exists author_id, author. auto.
    + destruct H as [H|[]]. discriminate.
  - intros (author_id & author & Hin & Hget & -> & ->).
    right. apply in_or_app. right. right.
    apply in_or_app. right. apply in_or_app. left.
    apply in_trace_for_each. exists author_id. split; [assumption|].
    rewrite trace_write_page, Hget. now left.
Qed.










(** C6, as amended.  For an identifier without an entry in the registry,
    the renderer returns no page content and prints the warning, and
    [main] writes no file for it. *)
Theorem unregistered_author AUTHORS author_id :
  get author_id AUTHORS = None ->
  (forall articles,
     generate_author_page AUTHORS author_id articles
     = ([], [Stdout (warning author_id)]))
  /\ (forall files content,
        ~ In (WriteText (output_file author_id) content)
             (trace (main AUTHORS files))).
Proof.
  intros Hnone. split.
  - intros articles. now apply generate_unregistered.
  - intros files content H.
    apply main_writes in H as (a & author & _ & Hget & E & _).
    apply output_file_inj in E. subst a. congruence.
Qed.

Lemma unregistered_author_witness :
  (forall articles,
     generate_author_page demo_registry (txt "bo") articles
     = ([], [Stdout (warning (txt "bo"))]))
  /\ (forall files content,
        ~ In (WriteText (txt "author-bo.md") content)
             (trace (main demo_registry files))).
Proof.
  exact (@unregistered_author demo_registry (txt "bo") eq_refl).
Defined.

(** In a run, an identifier that the articles credit and the registry does
    not know is never rendered, so [main] prints no warning for it. *)
Lemma unregistered_author_no_warning :
  get (txt "bo") (value (scan_articles demo_files))
  = Some [(txt "02-setup", txt "Setup", txt "Getting Started")]
  /\ get (txt "bo") demo_registry = None
  /\ ~ In (Stdout (warning (txt "bo"))) (trace (main demo_registry demo_files)).
Proof.
  repeat split.
  vm_compute. intros H.
  repeat (destruct H as [H|H]; [discriminate H|]). exact H.
Qed.

(* ================================================================= *)
(** ** The registry loader *)

Lemma get_set {V} k k' (v : V) d :
  get k (set k' v d) = if str_eqb k k' then Some v else get k d.
Proof.
  induction d as [|[k0 v0] d IH]; simpl.
  - reflexivity.
  - destruct (str_eqb k' k0) eqn:E; simpl.
    + apply str_eqb_eq in E. subst k0. now destruct (str_eqb k k').
    + destruct (str_eqb k k0) eqn:E0.
      * apply str_eqb_eq in E0. subst k0.
        destruct (str_eqb k k') eqn:E1; [|reflexivity].
        apply str_eqb_eq in E1. subst k'. now rewrite str_eqb_refl in E.
      * exact IH.
Qed.

Lemma get_fold_set {V} (F : str -> V) k ids : forall d,
  get k (fold_left (fun d i => set i (F i) d) ids d)
  = if existsb (str_eqb k) ids then Some (F k) else get k d.
Proof.
  induction ids as [|i ids IH]; intros d; simpl; [reflexivity|].
  rewrite IH, get_set.
  destruct (existsb (str_eqb k) ids); [now rewrite orb_true_r|].
  rewrite orb_false_r. destruct (str_eqb k i) eqn:E; [|reflexivity].
  apply str_eqb_eq in E. now subst.
Qed.

Lemma in_set_add x y s : In x (set_add y s) <-> x = y \/ In x s.
Proof.
  unfold set_add. destruct (existsb (str_eqb y) s) eqn:E.
  - apply existsb_exists in E as (z & Hz & E). apply str_eqb_eq in E.
    subst z. intuition congruence.
  - rewrite in_app_iff. simpl. intuition.
Qed.

Lemma in_author_ids substitutions author_id :
  In author_id (author_ids_of substitutions) <->
  exists key, In key (keys substitutions)
    /\ endswith (txt "_name") key = true
    /\ author_id = replace (txt "_name") [] key.
Proof.
  unfold author_ids_of.
  assert (G : forall ks acc,
    In author_id
      (fold_left
         (fun author_ids key =>
            if endswith (txt "_name") key
            then set_add (replace (txt "_name") [] key) author_ids
            else author_ids) ks acc)
    <-> In author_id acc
        \/ exists key, In key ks /\ endswith (txt "_name") key = true
                       /\ author_id = replace (txt "_name") [] key).
  { induction ks as [|key ks IH]; intros acc; cbn [fold_left].
    - split; [auto|]. now intros [H|(? & [] & _)].
    - rewrite IH. destruct (endswith (txt "_name") key) eqn:E.
      + rewrite in_set_add. split.
        * intros [[->|H]|(k & Hk & H)]; eauto 6 using in_eq, in_cons.
        * intros [H|(k & [<-|Hk] & He & ->)]; eauto 6.
      + split.
        * intros [H|(k & Hk & H)]; eauto 6 using in_cons.
        * intros [H|(k & [<-|Hk] & He & ->)]; eauto 6. congruence. }
  rewrite G. simpl. intuition.
Qed.

(** What the loader registers: the identifiers are the keys that end in
    [_name] after [replace], and each has the entry built from its
    companion keys and their defaults. *)
Lemma load_authors_spec substitutions author_id :
  get author_id (load_authors_from_config substitutions)
  = if existsb (str_eqb author_id) (author_ids_of substitutions)
    then Some (author_entry substitutions author_id)
    else None.
Proof. unfold load_authors_from_config. now rewrite get_fold_set. Qed.

Lemma load_authors_registers substitutions key :
  In key (keys substitutions) ->
  endswith (txt "_name") key = true ->
  get (replace (txt "_name") [] key) (load_authors_from_config substitutions)
  = Some (author_entry substitutions (replace (txt "_name") [] key)).
Proof.
  intros Hkey Hend. rewrite load_authors_spec.
  assert (existsb (str_eqb (replace (txt "_name") [] key))
            (author_ids_of substitutions) = true) as ->; [|reflexivity].
  apply existsb_exists. exists (replace (txt "_name") [] key).
  split; [|apply str_eqb_refl]. apply in_author_ids. eauto.
Qed.

Lemma replace_from_skip old new u : forall s,
  replace_from old new (List.length u) (u ++ s) = replace_from old new 0 s.
Proof. induction u as [|c u IH]; intros s; simpl; auto. Qed.

(** [replace] removes a suffix [old], and nothing else, from a string that
    has no other occurrence of [old]. *)
Lemma replace_suffix_only old prefix :
  old <> [] ->
  (forall s1 s2, prefix ++ old = s1 ++ s2 -> s2 <> old ->
                 startswith old s2 = false) ->
  replace old [] (prefix ++ old) = prefix.
Proof.
  intros Hold. unfold replace.
  induction prefix as [|c prefix IH]; intros Hno.
  - destruct old as [|o old]; [easy|]. cbn [app replace_from].
    assert (Hs : startswith (o :: old) (o :: old) = true).
    { rewrite <- (app_nil_r (o :: old)) at 2. apply startswith_app. }
    rewrite Hs. cbn [List.length pred app].
    pose proof (replace_from_skip (o :: old) [] old []) as H.
    rewrite app_nil_r in H. now rewrite H.
  - cbn [app replace_from].
    rewrite (Hno [] (c :: prefix ++ old) eq_refl).
    + f_equal. apply IH. intros s1 s2 E. apply (Hno (c :: s1)).
      simpl. now rewrite E.
    + intros E. apply (f_equal (@List.length _)) in E.
      simpl in E. rewrite length_app in E. lia.
Qed.

Lemma endswith_app suffix prefix : endswith suffix (prefix ++ suffix) = true.
Proof. unfold endswith. rewrite rev_app_distr. apply startswith_app. Qed.

(** For a key [<id>_name] with no other [_name] in it, the loader registers
    [<id>]. *)
Lemma load_authors_single_suffix substitutions author_id :
  In (author_id ++ txt "_name") (keys substitutions) ->
  (forall s1 s2, author_id ++ txt "_name" = s1 ++ s2 -> s2 <> txt "_name" ->
                 startswith (txt "_name") s2 = false) ->
  get author_id (load_authors_from_config substitutions)
  = Some (author_entry substitutions author_id).
Proof.
  intros Hkey Hno.
  pose proof (load_authors_registers substitutions _ Hkey
                (endswith_app _ _)) as H.
  rewrite replace_suffix_only in H; [assumption|discriminate|assumption].
Qed.

(** C2, where the code departs from it.  A key that ends in [_name] and
    holds [_name] once more loses both: for [nick_name_name] the loader
    registers [nick], not [nick_name], and, finding no key [nick_name],
    gives it the name [Nick] in place of the value of the key. *)
Theorem load_authors_repeated_suffix :
  endswith (txt "_name") (txt "nick_name_name") = true
  /\ load_authors_from_config [(txt "nick_name_name", txt "Nick N.")]
     = [ (txt "nick",
          {| p_name := txt "Nick"; p_bio := []; p_github := [];
             p_linkedin := []; p_email := [] |}) ]
  /\ get (txt "nick_name")
       (load_authors_from_config [(txt "nick_name_name", txt "Nick N.")])
     = None.
Proof. repeat split. Qed.

(* ================================================================= *)
(** ** What a run prints *)

Ltac first_char H :=
  apply (f_equal (fun e => match e with Stdout l => hd 0 l | _ => 0 end)) in H;
  vm_compute in H; discriminate H.

Lemma scan_files_prints files : forall d line,
  In (Stdout line) (trace (scan_files d files)) ->
  startswith (txt "Error reading ") line = true.
Proof.
  induction files as [|f files IH]; intros d line; simpl; [tauto|].
  rewrite trace_bind, in_app_iff. intros [H|H]; [|eapply IH; eauto].
  unfold scan_file in H. destruct (skipped f); [destruct H|].
  rewrite trace_bind in H. simpl in H. rewrite app_nil_r in H.
  unfold extract_authors_from_file in H.
  destruct (read_text f) as [content|msg].
  - destruct (search AUTHOR_PATTERN content) as [[? ?]|]; destruct H.
  - destruct H as [[= <-]|[]]. reflexivity.
Qed.

(** [main] renders the identifiers of the registry only, so no run prints
    the warning of the renderer. *)
Lemma main_prints_no_warning AUTHORS files author_id :
  ~ In (Stdout (warning author_id)) (trace (main AUTHORS files)).
Proof.
  rewrite trace_main. cbv zeta. intros [H|H]; [first_char H|].
  apply in_app_or in H as [H|[H|H]].
  - unfold scan_articles in H. rewrite trace_bind in H. simpl in H.
    rewrite app_nil_r in H. apply scan_files_prints in H.
    vm_compute in H. discriminate H.
  - first_char H.
  - apply in_app_or in H as [H|H].
    { apply in_trace_for_each in H as (kv & _ & [H|[]]).
      first_char H. }
    apply in_app_or in H as [H|[H|[]]]; [|first_char H].
    apply in_trace_for_each in H as (a & Hin & H).
    rewrite trace_write_page in H.
    destruct (get a AUTHORS) as [author|] eqn:E.
    + destruct H as [H|[H|[]]]; [discriminate H|].
      first_char H.
    + apply in_keys_get in Hin. contradiction.
Qed.


(* ================================================================= *)
(** ** Further properties: what a match captures *)

Lemma repeat_one_lazy_sound_0 {A} p (k : str -> option A) s : forall x,
  repeat_one false 0 None p k s = Some x ->
  exists u s', s = u ++ s' /\ Forall (fun c => p c = true) u
    /\ k s' = Some x
    /\ (forall u1 u2, u = u1 ++ u2 -> u2 <> [] -> k (u2 ++ s') = None).
Proof.
  induction s as [|d s IH]; intros x H.
  - rewrite repeat_one_nil in H. exists [], []. repeat split; auto.
    intros [|? ?] u2 E; [simpl in E; now subst|discriminate].
  - simpl in H. unfold orelse in H.
    destruct (k (d :: s)) as [y|] eqn:Hk.
    + injection H as ->. exists [], (d :: s). repeat split; auto.
      intros [|? ?] u2 E; [simpl in E; now subst|discriminate].
    + destruct (p d) eqn:Hd; [|discriminate]. simpl in H.
      destruct (IH _ H) as (u & s' & -> & Hu & Hks & Hmin).
      exists (d :: u), s'. repeat split; auto.
      intros [|c u1] u2 E Hne.
      * simpl in E. subst u2. exact Hk.
      * injection E as <- E. now apply Hmin with (u1 := u1).
Qed.

Lemma repeat_one_lazy_sound {A} p (k : str -> option A) s x :
  repeat_one false 1 None p k s = Some x ->
  exists c u s', s = c :: u ++ s' /\ Forall (fun c => p c = true) (c :: u)
    /\ k s' = Some x
    /\ (forall u1 u2, u = u1 ++ u2 -> u2 <> [] -> k (u2 ++ s') = None).
Proof.
  destruct s as [|c s]; [discriminate|]. simpl.
  destruct (p c) eqn:Hc; [|discriminate]. simpl. intros H.
  apply repeat_one_lazy_sound_0 in H as (u & s' & -> & Hu & Hk & Hmin).
  exists c, u, s'. repeat split; auto.
Qed.

Lemma run_ones_inv ignorecase lits k m : forall s r,
  run (ones ignorecase lits ++ k) m s = Some r ->
  exists w s', s = w ++ s' /\ spells ignorecase lits w = true
               /\ run k m s' = Some r.
Proof.
  induction lits as [|c lits IH]; intros s r H; simpl in H.
  - exists [], s. auto.
  - destruct s as [|x s]; [discriminate|].
    destruct (literal ignorecase c x) eqn:Hx; [|discriminate].
    destruct (IH _ _ H) as (w & s' & -> & Hw & Hk).
    exists (x :: w), s'. simpl. rewrite Hx, Hw. auto.
Qed.

Lemma search_some_here ops s r :
  search ops s = Some r ->
  exists before s', s = before ++ s' /\ match_here ops s' = Some r.
Proof.
  induction s as [|c s IH]; rewrite search_unfold.
  - destruct (match_here ops []) eqn:H; [|discriminate].
    intros [= <-]. exists [], []. auto.
  - destruct (match_here ops (c :: s)) eqn:H.
    + intros [= <-]. exists [], (c :: s). auto.
    + intros H'. destruct (IH H') as (before & s' & -> & Hm).
      exists (c :: before), s'. auto.
Qed.

(** A match of [AUTHOR_PATTERN] at the head of a text: the text starts
    with a marker, group 1 is its body, and the lazy body stops at the
    first star after its first character. *)
Lemma match_here_AUTHOR_PATTERN_shape s g rest :
  match_here AUTHOR_PATTERN s = Some (g, rest) ->
  exists kw ws,
    s = star :: kw ++ colon :: ws ++ g ++ star :: rest
    /\ is_keyword kw = true
    /\ Forall (fun c => isspace c = true) ws
    /\ g <> [] /\ ~ In newline g /\ ~ In star (tl g).
Proof.
  unfold match_here. rewrite AUTHOR_PATTERN_eq.
  destruct (run _ _ s) as [[m r]|] eqn:H; [|discriminate].
  intros [= <- <-]. cbn [run] in H.
  destruct s as [|c0 s]; [discriminate|].
  destruct (literal true star c0) eqn:Hc0; [|discriminate].
  apply literal_star in Hc0 as ->.
  apply run_ones_inv in H as (w6 & s1 & -> & Hw6 & H).
  unfold after_author in H. cbn [run] in H.
  apply repeat_one_sound in H as (us & s2 & -> & Hus & _ & Hhi & H).
  destruct s2 as [|cc s2]; [discriminate|].
  destruct (literal true colon cc) eqn:Hcc; [|discriminate].
  apply literal_colon in Hcc as ->.
  apply repeat_one_sound in H as (ws & s3 & -> & Hws & _ & _ & H).
  apply repeat_one_lazy_sound in H as (c & u & s4 & -> & Hu & H & Hmin).
  cbn [run] in H. destruct s4 as [|cs s4]; [discriminate|].
  destruct (literal true star cs) eqn:Hcs; [|discriminate].
  apply literal_star in Hcs as ->. injection H as <- <-.
  assert (Hg : group1
                 {| at_open := c :: u ++ star :: s4;
                    at_close := star :: s4 |} = c :: u).
  { now apply group1_app with (rest := star :: s4). }
  cbn [at_open at_close] in *. rewrite Hg.
  exists (w6 ++ us), ws. repeat split.
  - simpl. now rewrite <- !app_assoc.
  - apply is_keyword_inv. exists w6, us. repeat split; auto.
    destruct us as [|x [|? ?]]; simpl in Hhi; [auto| |lia].
    right. exists x. split; [reflexivity|]. now inversion Hus.
  - exact Hws.
  - discriminate.
  - now apply any_not_newline.
  - simpl. intros Hin. apply in_split in Hin as (u1 & u2 & ->).
    pose proof (Hmin u1 (star :: u2) eq_refl) as Hn.
    cbn [run app] in Hn.
    rewrite (proj2 (literal_star star) eq_refl) in Hn.
    now specialize (Hn ltac:(discriminate)).
Qed.

Lemma search_marker_shape content author_text rest :
  search AUTHOR_PATTERN content = Some (author_text, rest) ->
  exists before kw ws,
    content
    = before ++ star :: kw ++ colon :: ws ++ author_text ++ star :: rest
    /\ is_keyword kw = true
    /\ Forall (fun c => isspace c = true) ws
    /\ author_text <> []
    /\ ~ In newline author_text
    /\ ~ In star (tl author_text).
Proof.
  intros H. apply search_some_here in H as (before & s & -> & H).
  apply match_here_AUTHOR_PATTERN_shape in H as (kw & ws & -> & Hrest).
  exists before, kw, ws. split; [reflexivity|exact Hrest].
Qed.

(** X1.  What the search of the extractor returns: the document holds, at
    the place of the match, a star, the keyword, a colon, blanks, the
    captured author text and a star; the author text is not empty, stays on
    one line, and holds no star after its first character. *)
Theorem search_captures_marker_body content author_text rest :
  search AUTHOR_PATTERN content = Some (author_text, rest) ->
  exists before kw ws,
    content
    = before ++ star :: kw ++ colon :: ws ++ author_text ++ star :: rest
    /\ is_keyword kw = true
    /\ Forall (fun c => isspace c = true) ws
    /\ author_text <> []
    /\ ~ In newline author_text
    /\ ~ In star (tl author_text).
Proof. exact (@search_marker_shape content author_text rest). Qed.

Lemma search_captures_marker_body_witness :
  exists before kw ws,
    txt "# T *Authors:  Ada, Bo* end"
    = before ++ star :: kw ++ colon :: ws ++ txt "Ada, Bo"
        ++ star :: txt " end"
    /\ is_keyword kw = true
    /\ Forall (fun c => isspace c = true) ws
    /\ txt "Ada, Bo" <> []
    /\ ~ In newline (txt "Ada, Bo")
    /\ ~ In star (tl (txt "Ada, Bo")).
Proof.
  exact (@search_captures_marker_body (txt "# T *Authors:  Ada, Bo* end")
           (txt "Ada, Bo") (txt " end") eq_refl).
Defined.

Lemma names_of_marker_nonempty author_text :
  names_of_marker author_text <> [].
Proof.
  unfold names_of_marker.
  destruct (findall AUTHOR_LINK_PATTERN author_text) as [|a l]; simpl.
  - pose proof (split_nonempty comma author_text).
    now destruct (split comma author_text).
  - discriminate.
Qed.

(** X2.  For a file that can be read, the extractor returns no name
    exactly when the text holds no attribution marker: a marker always
    gives at least one name, be it the empty one. *)
Theorem extract_empty_iff_no_marker filepath content :
  read_text filepath = inl content ->
  (value (extract_authors_from_file filepath) = []
   <-> ~ contains_marker content).
Proof.
  intros Hread. rewrite <- search_AUTHOR_PATTERN_none.
  unfold extract_authors_from_file. rewrite Hread.
  destruct (search AUTHOR_PATTERN content) as [[g r]|]; simpl.
  - split; [|discriminate]. intros H.
    now apply names_of_marker_nonempty in H.
  - tauto.
Qed.

Lemma extract_empty_iff_no_marker_witness :
  value (extract_authors_from_file (md "a" (txt "*Author: ,*"))) = []
  <-> ~ contains_marker (txt "*Author: ,*").
Proof.
  exact (@extract_empty_iff_no_marker (md "a" (txt "*Author: ,*"))
           (txt "*Author: ,*") eq_refl).
Defined.

(* ================================================================= *)
(** ** Further properties: the names *)











(** A match of [AUTHOR_LINK_PATTERN] at the head of a text: the text
    starts with a well-formed link, and group 1 is its display text. *)
Lemma match_here_link_shape s g rest :
  match_here AUTHOR_LINK_PATTERN s = Some (g, rest) ->
  exists t,
    s = link_text {| display := g; target := t |} ++ rest
    /\ well_formed {| display := g; target := t |}.
Proof.
  unfold match_here, AUTHOR_LINK_PATTERN.
  destruct (run _ _ s) as [[m r]|] eqn:H; [|discriminate].
  intros [= <- <-]. cbn [run] in H.
  destruct s as [|c0 s]; [discriminate|]. unfold literal in H.
  destruct (N.eqb_spec c0 lbracket) as [->|]; [|discriminate].
  apply repeat_one_sound in H as (u & s2 & -> & Hu & Hlo & _ & H).
  cbn [run] in H. destruct s2 as [|c1 [|c2 s3]]; try discriminate.
  { destruct (c1 =? rbracket); discriminate. }
  destruct (N.eqb_spec c1 rbracket) as [->|]; [|discriminate].
  destruct (N.eqb_spec c2 lparen) as [->|]; [|discriminate].
  apply repeat_one_sound in H as (t & s4 & -> & Ht & Hlo' & _ & H).
  cbn [run] in H. destruct s4 as [|c3 s4]; [discriminate|].
  destruct (N.eqb_spec c3 rparen) as [->|]; [|discriminate].
  injection H as <- <-.
  assert (Hg : group1
                 {| at_open := u ++ rbracket :: lparen :: t ++ rparen :: s4;
                    at_close := rbracket :: lparen :: t ++ rparen :: s4 |}
               = u).
  { now apply group1_app
      with (rest := rbracket :: lparen :: t ++ rparen :: s4). }
  cbn [at_open at_close] in *. rewrite Hg. exists t. split.
  - unfold link_text. simpl. rewrite <- app_assoc. simpl.
    now rewrite <- app_assoc.
  - unfold well_formed. simpl. repeat split.
    + destruct u; [simpl in Hlo; lia|discriminate].
    + now apply not_literal_all.
    + destruct t; [simpl in Hlo'; lia|discriminate].
    + now apply not_literal_all.
Qed.

Lemma in_findall_from g s : forall skip,
  In g (findall_from AUTHOR_LINK_PATTERN skip s) ->
  exists before s' rest,
    s = before ++ s'
    /\ match_here AUTHOR_LINK_PATTERN s' = Some (g, rest).
Proof.
  induction s as [|c s IH]; intros skip H; [destruct H|].
  cbn [findall_from] in H.
  assert (Hlater : forall k,
    In g (findall_from AUTHOR_LINK_PATTERN k s) ->
    exists before s' rest,
      c :: s = before ++ s'
      /\ match_here AUTHOR_LINK_PATTERN s' = Some (g, rest)).
  { intros k Hk. destruct (IH _ Hk) as (before & s' & rest & -> & Hm).
    exists (c :: before), s', rest. auto. }
  destruct skip as [|k]; [|eauto].
  destruct (match_here AUTHOR_LINK_PATTERN (c :: s)) as [[g' rest]|] eqn:Hm;
    [|eauto].
  destruct H as [<-|H]; [|eauto].
  exists [], (c :: s), rest. auto.
Qed.

(** X5.  Every display text that [findall] returns stands in the text
    inside a link: an opening bracket, the display text, which is not empty
    and holds no closing bracket, then a target between parentheses, not
    empty and without closing parenthesis. *)
Theorem findall_finds_links text g :
  In g (findall AUTHOR_LINK_PATTERN text) ->
  exists t,
    well_formed {| display := g; target := t |}
    /\ occurs_in (link_text {| display := g; target := t |}) text.
Proof.
  intros H. apply in_findall_from in H as (before & s & rest & -> & H).
  apply match_here_link_shape in H as (t & -> & Hwf).
  exists t. split; [assumption|]. now exists before, rest.
Qed.

Lemma findall_finds_links_witness :
  exists t,
    well_formed {| display := txt "Bo"; target := t |}
    /\ occurs_in (link_text {| display := txt "Bo"; target := t |})
         (txt "Ada, [Bo](x.md#bo)").
Proof.
  exact (@findall_finds_links (txt "Ada, [Bo](x.md#bo)") (txt "Bo")
           (or_introl eq_refl)).
Defined.

(* ================================================================= *)
(** ** Further properties: the index *)

Lemma value_scan_file d md_file :
  value (scan_file d md_file)
  = if skipped md_file then d
    else fold_left (fun d author => append_to author (entry_of md_file) d)
           (value (extract_authors_from_file md_file)) d.
Proof.
  unfold scan_file. destruct (skipped md_file); [reflexivity|].
  now rewrite value_bind.
Qed.

Lemma trace_scan_file d md_file :
  trace (scan_file d md_file)
  = if skipped md_file then []
    else trace (extract_authors_from_file md_file).
Proof.
  unfold scan_file. destruct (skipped md_file); [reflexivity|].
  rewrite trace_bind. simpl. apply app_nil_r.
Qed.

Lemma value_scan_files_cons d md_file files :
  value (scan_files d (md_file :: files))
  = value (scan_files (value (scan_file d md_file)) files).
Proof. cbn [scan_files]. now rewrite value_bind. Qed.

Lemma trace_scan_files_cons d md_file files :
  trace (scan_files d (md_file :: files))
  = trace (scan_file d md_file)
    ++ trace (scan_files (value (scan_file d md_file)) files).
Proof. cbn [scan_files]. now rewrite trace_bind. Qed.

Lemma get_default_append a x e (d : dict (list entry)) :
  get_default a (append_to x e d) []
  = get_default a d [] ++ (if str_eqb a x then [e] else []).
Proof.
  unfold append_to, get_default at 1. rewrite get_set.
  destruct (str_eqb a x) eqn:E.
  - apply str_eqb_eq in E. now subst.
  - now rewrite app_nil_r.
Qed.

Lemma get_default_fold_append a e authors : forall d : dict (list entry),
  get_default a (fold_left (fun d x => append_to x e d) authors d) []
  = get_default a d [] ++ map (fun _ => e) (filter (str_eqb a) authors).
Proof.
  induction authors as [|x authors IH]; intros d; simpl.
  - now rewrite app_nil_r.
  - rewrite IH, get_default_append, <- app_assoc.
    now destruct (str_eqb a x).
Qed.

Lemma no_empty_list_append x e d :
  no_empty_list d -> no_empty_list (append_to x e d).
Proof.
  intros H a. unfold append_to. rewrite get_set.
  destruct (str_eqb a x); [|apply H].
  intros [= E]. now apply app_eq_nil in E as [_ E].
Qed.

Lemma no_empty_list_scan_files files : forall d,
  no_empty_list d -> no_empty_list (value (scan_files d files)).
Proof.
  induction files as [|f files IH]; intros d H; [exact H|].
  rewrite value_scan_files_cons. apply IH. rewrite value_scan_file.
  destruct (skipped f); [exact H|].
  generalize (value (extract_authors_from_file f)). intros authors.
  revert d H. induction authors as [|x authors IHa]; intros d H; simpl;
    [exact H|].
  apply IHa. now apply no_empty_list_append.
Qed.

Lemma get_default_scan_files a files : forall d,
  get_default a (value (scan_files d files)) []
  = get_default a d [] ++ credits a files.
Proof.
  induction files as [|f files IH]; intros d.
  - simpl. now rewrite app_nil_r.
  - rewrite value_scan_files_cons, IH, value_scan_file.
    cbn [credits flat_map]. fold (credits a files).
    destruct (skipped f); [reflexivity|].
    now rewrite get_default_fold_append, <- app_assoc.
Qed.

Lemma get_scan_articles files author :
  get author (value (scan_articles files))
  = match credits author files with
    | [] => None
    | _ :: _ => Some (sort_by_stem (credits author files))
    end.
Proof.
  rewrite value_scan_articles, get_map_values.
  pose proof (get_default_scan_files author files []) as H.
  pose proof (@no_empty_list_scan_files files [] ltac:(easy) author) as Hne.
  unfold get_default in H. simpl in H.
  destruct (get author (value (scan_files [] files))) as [l|]; simpl.
  - rewrite <- H. destruct l; [congruence|reflexivity].
  - now rewrite <- H.
Qed.

(** X9.  The index of the scanner, for every author: the entries that the
    files which are not skipped give to the author, one per mention and
    file, sorted by stem; an author that no such file names has no key. *)
Theorem scan_articles_index files author :
  get author (value (scan_articles files))
  = match credits author files with
    | [] => None
    | _ :: _ => Some (sort_by_stem (credits author files))
    end.
Proof. exact (get_scan_articles files author). Qed.

Lemma in_sort_by_stem e l : In e (sort_by_stem l) <-> In e l.
Proof.
  split; apply Permutation_in;
    [symmetry|]; apply sort_by_stem_perm.
Qed.

Lemma section_is_known k :
  In (get_default k SECTIONS (txt "Other"))
    [ txt "Getting Started"; txt "Energy System Fundamentals";
      txt "Modelling Techniques"; txt "Other" ].
Proof.
  unfold get_default, SECTIONS. cbn [get].
  repeat match goal with
    | |- context [str_eqb ?a ?b] => destruct (str_eqb a b); [simpl; tauto|]
    end.
  simpl. tauto.
Qed.

(** X11.  Every entry that the index holds for an author comes from a
    file of the directory that is not skipped and names the author: it is
    the stem of the file, its title, and its section, which is one of the
    three sections of the table or [Other]. *)
Theorem index_entries_come_from_files files author articles e :
  get author (value (scan_articles files)) = Some articles ->
  In e articles ->
  exists md_file,
    In md_file files /\ skipped md_file = false
    /\ In author (value (extract_authors_from_file md_file))
    /\ e = (stem md_file, get_article_title md_file,
            get_default (stem md_file) SECTIONS (txt "Other"))
    /\ In (snd e)
         [ txt "Getting Started"; txt "Energy System Fundamentals";
           txt "Modelling Techniques"; txt "Other" ].
Proof.
  rewrite get_scan_articles.
  destruct (credits author files) as [|e0 l] eqn:Ec; [discriminate|].
  intros H He.
  assert (Ea : articles = sort_by_stem (credits author files))
    by (rewrite Ec; congruence).
  clear H Ec. subst articles. rewrite in_sort_by_stem in He.
  unfold credits in He. apply in_flat_map in He as (f & Hf & He).
  destruct (skipped f) eqn:Hs; [destruct He|].
  apply in_map_iff in He as (x & <- & Hx).
  apply filter_In in Hx as [Hx Heq]. apply str_eqb_eq in Heq. subst x.
  exists f. repeat split; auto. apply section_is_known.
Qed.

Lemma index_entries_come_from_files_witness :
  exists md_file,
    In md_file unsorted_files /\ skipped md_file = false
    /\ In (txt "bo") (value (extract_authors_from_file md_file))
    /\ (txt "zeta", txt "zeta", txt "Other")
       = (stem md_file, get_article_title md_file,
          get_default (stem md_file) SECTIONS (txt "Other"))
    /\ In (snd (txt "zeta", txt "zeta", txt "Other"))
         [ txt "Getting Started"; txt "Energy System Fundamentals";
           txt "Modelling Techniques"; txt "Other" ].
Proof.
  exact (@index_entries_come_from_files unsorted_files (txt "bo") _
           (txt "zeta", txt "zeta", txt "Other") eq_refl
           (or_intror (or_intror (or_introl eq_refl)))).
Defined.

(** X10.  What the scanner prints: one line for each file that is not
    skipped and cannot be read, in the order of the files, and nothing
    else. *)
Theorem scan_articles_trace files :
  trace (scan_articles files)
  = flat_map
      (fun md_file =>
         if skipped md_file then []
         else match read_text md_file with
              | inl _ => []
              | inr e => [Stdout (error_line md_file e)]
              end)
      files.
Proof.
  unfold scan_articles. rewrite trace_bind. simpl. rewrite app_nil_r.
  generalize (@nil (str * list entry)).
  induction files as [|f files IH]; intros d; [reflexivity|].
  rewrite trace_scan_files_cons, IH, trace_scan_file. cbn [flat_map].
  f_equal. destruct (skipped f); [reflexivity|].
  unfold extract_authors_from_file.
  destruct (read_text f) as [content|e]; [|reflexivity].
  now destruct (search AUTHOR_PATTERN content) as [[? ?]|].
Qed.

(* ================================================================= *)
(** ** Further properties: files that give nothing *)

Lemma value_scan_files_without md_file files1 : forall files2 d,
  (forall d', value (scan_file d' md_file) = d') ->
  value (scan_files d (files1 ++ md_file :: files2))
  = value (scan_files d (files1 ++ files2)).
Proof.
  induction files1 as [|f files1 IH]; intros files2 d H; cbn [app].
  - now rewrite value_scan_files_cons, H.
  - rewrite !value_scan_files_cons. now apply IH.
Qed.

Lemma scan_files_without md_file files1 : forall files2 d,
  (forall d', scan_file d' md_file = ret d') ->
  scan_files d (files1 ++ md_file :: files2) = scan_files d (files1 ++ files2).
Proof.
  induction files1 as [|f files1 IH]; intros files2 d H; cbn [app scan_files].
  - now rewrite H, bind_ret_l.
  - apply bind_ext. intros d'. now apply IH.
Qed.

(** X6.  A file that cannot be read: the extractor prints one line with
    the path and the message of the exception and returns no author, the
    title is the stem, and the index of the directory is the index without
    the file. *)
Theorem unreadable_file filepath e :
  read_text filepath = inr e ->
  extract_authors_from_file filepath
  = ([], [Stdout (txt "Error reading " ++ path_str filepath
                  ++ txt ": " ++ e)])
  /\ get_article_title filepath = stem filepath
  /\ forall files1 files2,
       value (scan_articles (files1 ++ filepath :: files2))
       = value (scan_articles (files1 ++ files2)).
Proof.
  intros Hread.
  assert (Hex : extract_authors_from_file filepath
                = ([], [Stdout (txt "Error reading " ++ path_str filepath
                                ++ txt ": " ++ e)])).
  { unfold extract_authors_from_file. now rewrite Hread. }
  repeat split.
  - exact Hex.
  - unfold get_article_title. now rewrite Hread.
  - intros files1 files2. rewrite !value_scan_articles. f_equal.
    apply value_scan_files_without. intros d'.
    rewrite value_scan_file, Hex. now destruct (skipped filepath).
Qed.

Lemma unreadable_file_witness :
  extract_authors_from_file locked_file
  = ([], [Stdout (txt "Error reading " ++ path_str locked_file ++ txt ": "
                  ++ txt "[Errno 13] Permission denied")])
  /\ get_article_title locked_file = stem locked_file
  /\ forall files1 files2,
       value (scan_articles (files1 ++ locked_file :: files2))
       = value (scan_articles (files1 ++ files2)).
Proof.
  exact (@unreadable_file locked_file
           (txt "[Errno 13] Permission denied") eq_refl).
Defined.

Lemma scan_articles_skipped md_file files1 files2 :
  skipped md_file = true ->
  scan_articles (files1 ++ md_file :: files2)
  = scan_articles (files1 ++ files2).
Proof.
  intros H. unfold scan_articles.
  rewrite scan_files_without; [reflexivity|].
  intros d'. unfold scan_file. now rewrite H.
Qed.

(** X7.  A file whose name starts with [author-], [intro] or
    [references] is passed over without being read: whatever it holds, and
    whether it can be read or not, the scan of the directory, index and
    messages, is the scan without it. *)
Theorem reserved_file_ignored md_file files1 files2 :
  startswith (txt "author-") (name md_file) = true
  \/ startswith (txt "intro") (name md_file) = true
  \/ startswith (txt "references") (name md_file) = true ->
  scan_articles (files1 ++ md_file :: files2)
  = scan_articles (files1 ++ files2).
Proof.
  intros H. apply scan_articles_skipped.
  unfold skipped, startswith_any. cbn [existsb].
  destruct H as [H|[H|H]]; rewrite H, ?orb_true_r; reflexivity.
Qed.

Lemma reserved_file_ignored_witness :
  scan_articles (unsorted_files ++ intro_file :: demo_files)
  = scan_articles (unsorted_files ++ demo_files).
Proof.
  exact (@reserved_file_ignored intro_file unsorted_files demo_files
           (or_intror (or_introl eq_refl))).
Defined.




(* ================================================================= *)
(** ** Further properties: the pages of a run *)

Lemma written_app t1 t2 : written (t1 ++ t2) = written t1 ++ written t2.
Proof. unfold written. apply flat_map_app. Qed.

Lemma written_prints_only t :
  (forall e, In e t -> ~ is_write e) -> written t = [].
Proof.
  induction t as [|e t IH]; intros H; [reflexivity|].
  cbn [written flat_map]. fold (written t).
  rewrite IH by (intros e' He'; apply H; now right).
  destruct e as [l|p c]; [reflexivity|].
  exfalso. apply (H (WriteText p c)); [now left|exact I].
Qed.

Lemma written_for_each {A} (xs : list A) body :
  written (trace (for_each xs body))
  = flat_map (fun x => written (trace (body x))) xs.
Proof.
  induction xs as [|x xs IH]; [reflexivity|].
  cbn [for_each flat_map]. now rewrite trace_bind, written_app, IH.
Qed.

Lemma keys_set {V} k (v : V) d :
  keys (set k v d) = if existsb (str_eqb k) (keys d) then keys d
                     else keys d ++ [k].
Proof.
  induction d as [|[k' v'] d IH]; [reflexivity|].
  cbn [set keys map fst existsb]. fold (keys d).
  destruct (str_eqb k k') eqn:E; simpl.
  - apply str_eqb_eq in E. now subst.
  - fold (keys (set k v d)). rewrite IH.
    now destruct (existsb (str_eqb k) (keys d)).
Qed.

Lemma NoDup_keys_set {V} k (v : V) d :
  NoDup (keys d) -> NoDup (keys (set k v d)).
Proof.
  intros H. rewrite keys_set.
  destruct (existsb (str_eqb k) (keys d)) eqn:E; [assumption|].
  apply NoDup_app; [assumption|repeat constructor; easy|].
  intros x Hx [Ex|[]]. subst x.
  assert (existsb (str_eqb k) (keys d) = true); [|congruence].
  apply existsb_exists. exists k. split; [assumption|apply str_eqb_refl].
Qed.

Lemma NoDup_keys_load substitutions :
  NoDup (keys (load_authors_from_config substitutions)).
Proof.
  unfold load_authors_from_config.
  generalize (author_ids_of substitutions). intros ids.
  assert (G : forall d : dict profile, NoDup (keys d) ->
    NoDup (keys (fold_left
                   (fun authors author_id =>
                      set author_id (author_entry substitutions author_id)
                        authors) ids d))).
  { induction ids as [|i ids IH]; intros d H; [exact H|].
    simpl. apply IH. now apply NoDup_keys_set. }
  apply G. constructor.
Qed.

Lemma flat_map_agree {A B} (f g : A -> list B) l :
  (forall a, In a l -> f a = g a) -> flat_map f l = flat_map g l.
Proof.
  induction l as [|x l IH]; intros H; [reflexivity|].
  simpl. rewrite (H x) by now left. f_equal. apply IH.
  intros a Ha. apply H. now right.
Qed.

Lemma flat_map_keys_get {V B} (F : str -> V -> B) (d : dict V) :
  NoDup (keys d) ->
  flat_map (fun k => match get k d with Some v => [F k v] | None => [] end)
    (keys d)
  = map (fun kv => F (fst kv) (snd kv)) d.
Proof.
  induction d as [|[k v] d IH]; [reflexivity|].
  cbn [keys map fst snd flat_map get]. fold (keys d).
  intros H. inversion H as [|? ? Hk Hd]; subst.
  rewrite str_eqb_refl. cbn [app]. f_equal.
  rewrite <- IH by assumption. apply flat_map_agree.
  intros a Ha. destruct (str_eqb a k) eqn:E; [|reflexivity].
  apply str_eqb_eq in E. now subst.
Qed.

Lemma written_stdout line t : written (Stdout line :: t) = written t.
Proof. reflexivity. Qed.

Lemma written_main AUTHORS files :
  NoDup (keys AUTHORS) ->
  written (trace (main AUTHORS files))
  = map (fun kv =>
           (output_file (fst kv),
            page_of (fst kv) (snd kv)
              (get_default (fst kv) (value (scan_articles files)) [])))
      AUTHORS.
Proof.
  intros Hnd. rewrite trace_main. cbv zeta.
  rewrite written_stdout, written_app.
  rewrite (@written_prints_only (trace (scan_articles files)))
    by apply scan_articles_prints_only.
  rewrite written_stdout, !written_app, !written_for_each.
  rewrite written_stdout. cbn [written flat_map app].
  rewrite app_nil_r.
  match goal with
  | |- flat_map ?f ?l ++ ?r = _ =>
      assert (Hp : flat_map f l = []) by (now induction l)
  end.
  rewrite Hp. cbn [app].
  rewrite <- (@flat_map_keys_get _ _
                (fun k v =>
                   (output_file k,
                    page_of k v
                      (get_default k (value (scan_articles files)) [])))
                AUTHORS Hnd).
  apply flat_map_ext. intros a. rewrite trace_write_page.
  now destruct (get a AUTHORS).
Qed.






Lemma article_lines_same (articles articles' : list entry) :
  map (fun e : entry => (entry_stem e, snd e)) articles
  = map (fun e : entry => (entry_stem e, snd e)) articles' ->
  article_lines articles = article_lines articles'.
Proof.
  intros H. unfold article_lines, article_table.
  assert (Hrows : forall l l' : list entry,
    map (fun e : entry => (entry_stem e, snd e)) l
    = map (fun e : entry => (entry_stem e, snd e)) l' ->
    flat_map
      (fun e : entry =>
         let '(file_stem, _, section) := e in
         [ txt "* - {doc}`" ++ file_stem ++ txt "`";
           txt "  - " ++ section ]) l
    = flat_map
        (fun e : entry =>
           let '(file_stem, _, section) := e in
           [ txt "* - {doc}`" ++ file_stem ++ txt "`";
             txt "  - " ++ section ]) l').
  { induction l as [|[[s1 t1] c1] l IH]; intros [|[[s2 t2] c2] l'] E;
      try discriminate; [reflexivity|].
    cbn [map] in E. unfold entry_stem in E. cbn [fst snd] in E.
    injection E as -> -> E. cbn [flat_map app]. f_equal. f_equal.
    now apply IH. }
  rewrite (Hrows _ _ H).
  destruct articles, articles'; try discriminate; reflexivity.
Qed.

(** X14.  The title of an article is carried in the index and never
    rendered: two article lists with the same stems and sections, in the
    same order, give the same page, whatever their titles. *)
Theorem page_ignores_titles AUTHORS author_id (articles articles' : list entry) :
  map (fun e : entry => (entry_stem e, snd e)) articles
  = map (fun e : entry => (entry_stem e, snd e)) articles' ->
  generate_author_page AUTHORS author_id articles
  = generate_author_page AUTHORS author_id articles'.
Proof.
  intros H. unfold generate_author_page, page_of.
  now rewrite (@article_lines_same _ _ H).
Qed.

Lemma page_ignores_titles_witness :
  generate_author_page demo_registry (txt "ada")
    [(txt "02-setup", txt "Setup", txt "Getting Started")]
  = generate_author_page demo_registry (txt "ada")
      [(txt "02-setup", txt "Another title", txt "Getting Started")].
Proof.
  exact (@page_ignores_titles demo_registry (txt "ada")
           [(txt "02-setup", txt "Setup", txt "Getting Started")]
           [(txt "02-setup", txt "Another title", txt "Getting Started")]
           eq_refl).
Defined.

(* ================================================================= *)
(** ** Further properties: the registry *)

(** X15.  The registry that the loader builds: an identifier is a key of
    it exactly when it is, after [replace], a key of the table that ends in
    [_name]; its entry is then made of the five companion keys with their
    defaults; and no identifier is registered twice. *)
Theorem load_authors_registry substitutions :
  (forall author_id author,
     get author_id (load_authors_from_config substitutions) = Some author
     <-> (exists key, In key (keys substitutions)
            /\ endswith (txt "_name") key = true
            /\ author_id = replace (txt "_name") [] key)
         /\ author = author_entry substitutions author_id)
  /\ NoDup (keys (load_authors_from_config substitutions)).
Proof.
  split; [|apply NoDup_keys_load].
  intros author_id author. rewrite load_authors_spec, <- in_author_ids.
  destruct (existsb (str_eqb author_id) (author_ids_of substitutions)) eqn:E.
  - apply existsb_exists in E as (x & Hx & E). apply str_eqb_eq in E.
    subst x. split.
    + intros [= <-]. auto.
    + intros [_ ->]. reflexivity.
  - split; [discriminate|]. intros [Hin _].
    assert (existsb (str_eqb author_id) (author_ids_of substitutions) = true);
      [|congruence].
    apply existsb_exists. exists author_id.
    split; [assumption|apply str_eqb_refl].
Qed.

Lemma get_in_keys {V} k (d : dict V) v : get k d = Some v -> In k (keys d).
Proof. intros H. apply in_keys_get. congruence. Qed.

(** [_name] starts in [<id>_name] at its last five characters only, when
    [<id>] does not hold it. *)
Lemma suffix_occurs_once author_id :
  ~ occurs_in (txt "_name") author_id ->
  forall s1 s2, author_id ++ txt "_name" = s1 ++ s2 -> s2 <> txt "_name" ->
                startswith (txt "_name") s2 = false.
Proof.
  intros Hno s1 s2 E Hne.
  destruct (startswith (txt "_name") s2) eqn:Hs; [|reflexivity].
  exfalso. apply startswith_inv in Hs as (s3 & ->).
  apply app_eq_app in E as (l & [[E1 E2]|[E1 E2]]).
  - destruct l as [|a [|b [|c [|d [|e l]]]]];
      cbn in E2; try (injection E2; intros; subst; discriminate).
    + injection E2 as ->. apply Hne. reflexivity.
    + injection E2 as <- <- <- <- <- E2.
      apply Hno. exists s1, l. exact E1.
  - apply (f_equal (@List.length _)) in E2.
    rewrite !length_app in E2.
    assert (s3 = []) as -> by (destruct s3; [reflexivity|simpl in E2; lia]).
    now apply Hne.
Qed.

(** X16.  A key [<id>_name] whose [<id>] does not hold [_name] registers
    [<id>], with the value of the key as display name and the companion
    keys, or the empty string, for the rest. *)
Theorem load_authors_plain_identifier substitutions author_id display_name :
  get (author_id ++ txt "_name") substitutions = Some display_name ->
  ~ occurs_in (txt "_name") author_id ->
  get author_id (load_authors_from_config substitutions)
  = Some {| p_name := display_name;
            p_bio := get_default (author_id ++ txt "_bio") substitutions [];
            p_github :=
              get_default (author_id ++ txt "_github") substitutions [];
            p_linkedin :=
              get_default (author_id ++ txt "_linkedin") substitutions [];
            p_email :=
              get_default (author_id ++ txt "_email") substitutions [] |}.
Proof.
  intros Hget Hno.
  rewrite (@load_authors_single_suffix substitutions author_id
             (@get_in_keys _ _ _ _ Hget) (@suffix_occurs_once _ Hno)).
  unfold author_entry, get_default at 1. now rewrite Hget.
Qed.

Lemma load_authors_plain_identifier_witness :
  get (txt "ada") demo_registry
  = Some {| p_name := txt "Ada L.";
            p_bio := txt "Writes notes.";
            p_github := txt "https://github.com/ada";
            p_linkedin := [];
            p_email := [] |}.
Proof.
  refine (@load_authors_plain_identifier
            [ (txt "ada_name", txt "Ada L."); (txt "ada_bio", txt "Writes notes.");
              (txt "ada_github", txt "https://github.com/ada");
              (txt "cy_name", txt "Cy") ]
            (txt "ada") (txt "Ada L.") eq_refl _).
  intros (before & after & E).
  destruct before as [|a [|b [|c [|d before]]]]; discriminate E.
Defined.

Lemma author_ids_of_none substitutions :
  (forall key, In key (keys substitutions) ->
               endswith (txt "_name") key = false) ->
  author_ids_of substitutions = [].
Proof.
  unfold author_ids_of. generalize (keys substitutions). intros ks H.
  induction ks as [|k ks IH]; [reflexivity|].
  cbn [fold_left]. rewrite (H k) by now left.
  apply IH. intros key Hkey. apply H. now right.
Qed.

(** X17.  A table without any key that ends in [_name] gives an empty
    registry, and the run writes no file, whatever the articles credit. *)
Theorem no_name_key_no_page substitutions files :
  (forall key, In key (keys substitutions) ->
               endswith (txt "_name") key = false) ->
  load_authors_from_config substitutions = []
  /\ written (trace (run_script substitutions files)) = [].
Proof.
  intros H.
  assert (E : load_authors_from_config substitutions = []).
  { unfold load_authors_from_config. now rewrite author_ids_of_none. }
  split; [exact E|].
  unfold run_script. rewrite E. apply written_main. constructor.
Qed.

Lemma no_name_key_no_page_witness :
  load_authors_from_config
    [ (txt "ada_bio", txt "Writes notes."); (txt "book_title", txt "Notes") ]
  = []
  /\ written
       (trace (run_script
                 [ (txt "ada_bio", txt "Writes notes.");
                   (txt "book_title", txt "Notes") ]
                 demo_files))
     = [].
Proof.
  refine (@no_name_key_no_page
            [ (txt "ada_bio", txt "Writes notes.");
              (txt "book_title", txt "Notes") ]
            demo_files _).
  intros key [<-|[<-|[]]]; reflexivity.
Defined.
